(** * dr_protocol: a shallow embedding of [tools/dr_protocol.js]

    The script is a single-pass text pipeline: split the input into
    sentences, sort the sentences into facts / claims / questions, count
    keywords, pick focal points and attach canned proposals to them.

    Strings.  A JavaScript string is a sequence of UTF-16 code units.  The
    model takes the code units from U+0000 to U+00FF (Rocq's [ascii], read as
    Latin-1), so a string is a [list ascii].  On that alphabet
    [toLowerCase], [trim], the classes [\s], [\w], [\b] and the [i] flag are
    modelled exactly as ECMAScript defines them; code units above U+00FF are
    outside the model.

    Regular expressions.  The script's regex literals are values of an
    abstract syntax [regex] run by a backtracking matcher [rmatch] written in
    continuation-passing style, with the priorities of the ECMAScript
    matcher (left alternative first, greedy star).  [RegExp.prototype.test],
    [String.prototype.split] and the global [String.prototype.replace] are
    defined on top of it. *)

From Stdlib Require Import Ascii String DecimalString DecimalN.
From Stdlib Require Import List Arith Bool NArith ZArith Lia.
From Stdlib Require Import Sorting.Permutation Sorting.Sorted.
Import ListNotations.

Set Implicit Arguments.

(* ================================================================= *)
(** ** Strings *)

Definition jsstring := list ascii.

(** [str "abc"] is the JavaScript string literal ['abc']. *)
Definition str (s : string) : jsstring := list_ascii_of_string s.

Definition code (c : ascii) : nat := nat_of_ascii c.

Definition inRange (lo hi : nat) (c : ascii) : bool :=
  (lo <=? code c) && (code c <=? hi).

(** ECMAScript WhiteSpace and LineTerminator code points below U+0100:
    TAB, LF, VT, FF, CR, SP and NBSP.  This is the class [\s] and the set
    that [trim] strips. *)
Definition isWhiteSpace (c : ascii) : bool :=
  inRange 9 13 c || (code c =? 32) || (code c =? 160).

Definition isDigit (c : ascii) : bool := inRange 48 57 c.
Definition isLowerAZ (c : ascii) : bool := inRange 97 122 c.
Definition isUpperAZ (c : ascii) : bool := inRange 65 90 c.

(** The class [\w], which also decides [\b]: [A-Za-z0-9_]. *)
Definition isWordChar (c : ascii) : bool :=
  isLowerAZ c || isUpperAZ c || isDigit c || (code c =? 95).

(** [String.prototype.toLowerCase], one code unit at a time: A-Z, and the
    Latin-1 capitals U+00C0..U+00DE except the multiplication sign U+00D7. *)
Definition toLowerChar (c : ascii) : ascii :=
  if isUpperAZ c then ascii_of_nat (code c + 32)
  else if inRange 192 222 c && negb (code c =? 215) then ascii_of_nat (code c + 32)
  else c.

Definition toLowerCase (s : jsstring) : jsstring := map toLowerChar s.

Fixpoint dropWhile (p : ascii -> bool) (s : jsstring) : jsstring :=
  match s with
  | [] => []
  | c :: t => if p c then dropWhile p t else s
  end.

Definition trimStart (s : jsstring) : jsstring := dropWhile isWhiteSpace s.
Definition trimEnd (s : jsstring) : jsstring := rev (dropWhile isWhiteSpace (rev s)).

(** [String.prototype.trim]. *)
Definition trim (s : jsstring) : jsstring := trimEnd (trimStart s).

Fixpoint str_eqb (a b : jsstring) : bool :=
  match a, b with
  | [], [] => true
  | x :: a', y :: b' => Ascii.eqb x y && str_eqb a' b'
  | _, _ => false
  end.

(** [s.substring(p, q)] for [p <= q]. *)
Definition substring (s : jsstring) (p q : nat) : jsstring :=
  firstn (q - p) (skipn p s).

Fixpoint startsWith (k s : jsstring) : bool :=
  match k, s with
  | [], _ => true
  | x :: k', y :: s' => Ascii.eqb x y && startsWith k' s'
  | _ :: _, [] => false
  end.

(** [s.includes(k)]: [k] occurs in [s] at some index. *)
Fixpoint includes (s k : jsstring) : bool :=
  startsWith k s ||
  match s with
  | [] => false
  | _ :: t => includes t k
  end.

(** JavaScript truthiness of a string, as used by [filter(Boolean)]. *)
Definition truthy (s : jsstring) : bool :=
  match s with [] => false | _ :: _ => true end.

(** Text with every white-space code unit deleted. *)
Definition stripWhiteSpace (s : jsstring) : jsstring :=
  filter (fun c => negb (isWhiteSpace c)) s.

(* ================================================================= *)
(** ** Decimal numerals *)

(** [String(n)] for a natural number [n]: its decimal numeral. *)
Definition NtoDecimal (n : N) : jsstring :=
  list_ascii_of_string (NilEmpty.string_of_uint (N.to_uint n)).

(** The value of a non-empty string of decimal digits, [None] for any other
    string. *)
Definition parseDecimal (s : jsstring) : option N :=
  match s with
  | [] => None
  | _ :: _ => option_map N.of_uint (NilEmpty.uint_of_string (string_of_list_ascii s))
  end.

(* ================================================================= *)
(** ** Regular expressions *)

Inductive regex : Type :=
| Empty                              (* the empty pattern *)
| Class (p : ascii -> bool)          (* one code unit satisfying [p] *)
| Seq (a b : regex)                  (* ab *)
| Alt (a b : regex)                  (* a|b *)
| Star (a : regex)                   (* a*, greedy *)
| Bol                                (* ^ *)
| Eol                                (* $ *)
| WordB                              (* \b *)
| LookBehind (a : regex).            (* (?<=a) *)

(** Derived forms. *)
Definition Plus (a : regex) : regex := Seq a (Star a).           (* a+ *)
Definition AtLeast2 (a : regex) : regex := Seq a (Seq a (Star a)). (* a{2,} *)

Definition Chr (c : ascii) : regex := Class (Ascii.eqb c).

(** Canonicalize of the [i] flag (non-unicode mode) is [toUpperCase] on one
    code unit, except that a non-ASCII unit is never folded onto an ASCII
    one.  The script's patterns are made of ASCII letters, so a pattern
    letter matches exactly its two ASCII cases. *)
Definition ciEq (pat c : ascii) : bool :=
  Ascii.eqb pat c ||
  (isLowerAZ pat && Ascii.eqb (ascii_of_nat (code pat - 32)) c) ||
  (isUpperAZ pat && Ascii.eqb (ascii_of_nat (code pat + 32)) c).

Definition ChrI (c : ascii) : regex := Class (ciEq c).

Fixpoint Lit (s : jsstring) : regex :=
  match s with
  | [] => Empty
  | c :: t => Seq (Chr c) (Lit t)
  end.

Fixpoint LitI (s : jsstring) : regex :=
  match s with
  | [] => Empty
  | c :: t => Seq (ChrI c) (LitI t)
  end.

Fixpoint AltOf (r : regex) (rs : list regex) : regex :=
  match rs with
  | [] => r
  | r' :: rs' => Alt r (AltOf r' rs')
  end.

Section Matcher.

Variable s : jsstring.

Definition isWordAt (i : nat) : bool :=
  match nth_error s i with
  | Some c => isWordChar c
  | None => false
  end.

(** [\b] holds at [i] when exactly one of the code units on either side
    of [i] is a word character. *)
Definition wordBoundary (i : nat) : bool :=
  xorb (match i with 0 => false | S j => isWordAt j end) (isWordAt i).

(** Greedy iteration of the matcher [ma]; an iteration that consumes
    nothing is rejected, so at most [length s - i] iterations can
    succeed from [i] and [fuel] starts there. *)
Fixpoint starLoop (ma : nat -> (nat -> option nat) -> option nat)
         (k : nat -> option nat) (fuel i : nat) : option nat :=
  match fuel with
  | 0 => k i
  | S f =>
      match ma i (fun j => if i <? j then starLoop ma k f j else None) with
      | Some e => Some e
      | None => k i
      end
  end.

Definition isSome (o : option nat) : bool :=
  match o with Some _ => true | None => false end.

(** [rmatch r i k]: match [r] at index [i], then run the continuation on
    the end index; the result is the end index of the whole match. *)
Fixpoint rmatch (r : regex) (i : nat) (k : nat -> option nat) : option nat :=
  match r with
  | Empty => k i
  | Class p =>
      match nth_error s i with
      | Some c => if p c then k (S i) else None
      | None => None
      end
  | Seq a b => rmatch a i (fun j => rmatch b j k)
  | Alt a b =>
      match rmatch a i k with
      | Some e => Some e
      | None => rmatch b i k
      end
  | Star a => starLoop (rmatch a) k (length s - i) i
  | Bol => if i =? 0 then k i else None
  | Eol => if i =? length s then k i else None
  | WordB => if wordBoundary i then k i else None
  | LookBehind a =>
      if existsb (fun j => isSome (rmatch a j (fun e => if e =? i then Some e else None)))
                 (seq 0 (S i))
      then k i else None
  end.

(** A match attempt anchored at [i] (a sticky exec with [lastIndex = i]). *)
Definition execAt (r : regex) (i : nat) : option nat := rmatch r i Some.

(** The leftmost match starting at or after [from]: start and end index. *)
Fixpoint searchFrom (r : regex) (fuel from : nat) : option (nat * nat) :=
  match execAt r from with
  | Some e => Some (from, e)
  | None =>
      match fuel with
      | 0 => None
      | S f => searchFrom r f (S from)
      end
  end.

Definition search (r : regex) (from : nat) : option (nat * nat) :=
  if from <=? length s then searchFrom r (length s - from) from else None.

(** [r.test(s)]. *)
Definition test (r : regex) : bool :=
  match search r 0 with Some _ => true | None => false end.

(** The loop of [RegExp.prototype[Symbol.split]] for a pattern without
    capture groups and no limit: [p] is the start of the pending piece,
    [q] the index where a match is attempted. *)
Fixpoint splitLoop (r : regex) (fuel p q : nat) (acc : list jsstring)
  : list jsstring :=
  match fuel with
  | 0 => acc ++ [substring s p (length s)]
  | S f =>
      if q <? length s then
        match execAt r q with
        | None => splitLoop r f p (S q) acc
        | Some e0 =>
            let e := Nat.min e0 (length s) in
            if e =? p then splitLoop r f p (S q) acc
            else splitLoop r f e e (acc ++ [substring s p q])
        end
      else acc ++ [substring s p (length s)]
  end.

(** The loop state [(p, q)] strictly decreases this measure. *)
Definition splitMeasure (p q : nat) : nat :=
  2 * (length s - q) + (if p <? q then 1 else 0).

(** [s.split(r)]. *)
Definition split (r : regex) : list jsstring :=
  match s with
  | [] => match execAt r 0 with Some _ => [] | None => [s] end
  | _ :: _ => splitLoop r (2 * length s + 2) 0 0 []
  end.

(** The loop of [s.replace(r, repl)] for a global [r] and a replacement
    free of [$] patterns: [from] is [lastIndex], [copied] the index up to
    which the source has been emitted.  An empty match advances
    [lastIndex] by one. *)
Fixpoint replaceLoop (r : regex) (repl : jsstring) (fuel from copied : nat)
  : jsstring :=
  match fuel with
  | 0 => skipn copied s
  | S f =>
      match search r from with
      | None => skipn copied s
      | Some (b, e) =>
          substring s copied b ++ repl ++
          replaceLoop r repl f (if e =? b then S e else e) e
      end
  end.

Definition replaceAll (r : regex) (repl : jsstring) : jsstring :=
  replaceLoop r repl (length s + 2) 0 0.

(** Declarative reading of the patterns: [Matches r i j] when [r] matches
    the code units of [s] from index [i] up to index [j]. *)
Inductive Matches : regex -> nat -> nat -> Prop :=
| MEmpty i : Matches Empty i i
| MClass p i c : nth_error s i = Some c -> p c = true -> Matches (Class p) i (S i)
| MSeq a b i j l : Matches a i j -> Matches b j l -> Matches (Seq a b) i l
| MAltL a b i j : Matches a i j -> Matches (Alt a b) i j
| MAltR a b i j : Matches b i j -> Matches (Alt a b) i j
| MStar0 a i : Matches (Star a) i i
| MStarS a i j l :
    Matches a i j -> i < j -> Matches (Star a) j l -> Matches (Star a) i l
| MBol : Matches Bol 0 0
| MEol : Matches Eol (length s) (length s)
| MWordB i : wordBoundary i = true -> Matches WordB i i
| MLookBehind a i j : Matches a j i -> Matches (LookBehind a) i i.

End Matcher.

(* ================================================================= *)
(** ** Arrays and objects *)

(** [Array.prototype.sort(cmp)] is a stable sort; for a comparator that
    orders by a key the result is the one of this stable insertion sort. *)
Section Sort.

Variable A : Type.
Variable cmp : A -> A -> Z.

Fixpoint insertSorted (x : A) (l : list A) : list A :=
  match l with
  | [] => [x]
  | y :: t => if (cmp x y <=? 0)%Z then x :: l else y :: insertSorted x t
  end.

Definition sortBy (l : list A) : list A := fold_right insertSorted [] l.

End Sort.

(** [l.map((x, i) => f x i)]. *)
Fixpoint mapiFrom (A B : Type) (f : A -> nat -> B) (i : nat) (l : list A) : list B :=
  match l with
  | [] => []
  | x :: t => f x i :: mapiFrom f (S i) t
  end.

Definition mapi (A B : Type) (f : A -> nat -> B) (l : list A) : list B :=
  mapiFrom f 0 l.

(** An object used as a dictionary (here [Object.create(null)]): its own
    string-keyed properties in creation order. *)
Definition jsobject (V : Type) : Type := list (jsstring * V).

Fixpoint objGet (V : Type) (o : jsobject V) (k : jsstring) : option V :=
  match o with
  | [] => None
  | (k', v) :: t => if str_eqb k' k then Some v else objGet t k
  end.

(** [o[k] = v]: an existing property keeps its place, a new one is created
    last. *)
Fixpoint objSet (V : Type) (o : jsobject V) (k : jsstring) (v : V) : jsobject V :=
  match o with
  | [] => [(k, v)]
  | (k', v') :: t => if str_eqb k' k then (k', v) :: t else (k', v') :: objSet t k v
  end.

(** A property key is an array index when it is the canonical decimal
    numeral of an integer below 2^32 - 1. *)
Definition isArrayIndex (k : jsstring) : bool :=
  match parseDecimal k with
  | Some n => str_eqb (NtoDecimal n) k && (n <? 4294967295)%N
  | None => false
  end.

Definition indexValue (k : jsstring) : N :=
  match parseDecimal k with
  | Some n => n
  | None => 0
  end.

(** [Object.entries(o)] follows OrdinaryOwnPropertyKeys: the array-index
    keys in ascending numeric order, then the other keys in creation
    order. *)
Definition Object_entries (V : Type) (o : jsobject V) : list (jsstring * V) :=
  sortBy (fun a b => (Z.of_N (indexValue (fst a)) - Z.of_N (indexValue (fst b)))%Z)
         (filter (fun e => isArrayIndex (fst e)) o)
  ++ filter (fun e => negb (isArrayIndex (fst e))) o.

(* ================================================================= *)
(** ** The script *)

Definition STOPWORDS : list jsstring :=
  map str
    ["the";"a";"an";"and";"or";"but";"if";"then";"else";"for";"to";"of";"in";
     "on";"with";"by";"is";"are";"was";"were";"be";"been";"it";"that";"this";
     "these";"those";"as";"at";"from";"we";"you";"they";"he";"she";"i";"my";
     "our";"your"]%string.

Definition STOPWORDS_has (w : jsstring) : bool := existsb (str_eqb w) STOPWORDS.

Definition LF : ascii := ascii_of_nat 10.
Definition CR : ascii := ascii_of_nat 13.

(** The regex literals of the script, in order of appearance. *)

(* /[\u2018\u2019\u201c\u201d]/g : no code unit of the model is in the class *)
Definition reCurlyQuote : regex :=
  Class (fun c => existsb (N.eqb (N_of_ascii c)) [8216; 8217; 8220; 8221]%N).

(* /[^a-z0-9'\s\-]/g *)
Definition reNotToken : regex :=
  Class (fun c => negb (isLowerAZ c || isDigit c || Ascii.eqb c "'"
                        || isWhiteSpace c || Ascii.eqb c "-")).

(* /\s+/ *)
Definition reSpaces : regex := Plus (Class isWhiteSpace).

(* /[0-9]{2,}|202[0-9]|[0-9]+%/ *)
Definition reNumeric : regex :=
  Alt (AtLeast2 (Class isDigit))
      (Alt (Seq (Lit (str "202")) (Class isDigit))
           (Seq (Plus (Class isDigit)) (Chr "%"))).

(* /\b(version|error|commit|bug|issue|cron|workflow)\b/i *)
Definition reFactWord : regex :=
  Seq WordB
      (Seq (AltOf (LitI (str "version"))
                  (map (fun w => LitI (str w))
                       ["error";"commit";"bug";"issue";"cron";"workflow"]%string))
           WordB).

Definition claimWords : list jsstring :=
  map str ["should";"must";"need to";"we should";"recommend";"suggest";"propose"]%string.

(* /\b(should|must|need to|we should|recommend|suggest|propose)\b/i *)
Definition reClaimWord : regex :=
  Seq WordB
      (Seq (AltOf (LitI (str "should"))
                  (map (fun w => LitI (str w))
                       ["must";"need to";"we should";"recommend";"suggest";"propose"]%string))
           WordB).

(* /\?$/ *)
Definition reEndsQuestion : regex := Seq (Chr "?") Eol.

(* /^\s*who\s|what\s|why\s|how\s/i : the alternation binds loosest, so the
   anchor and the leading white space belong to the first alternative only *)
Definition reInterrogative : regex :=
  Alt (Seq Bol (Seq (Star (Class isWhiteSpace))
                    (Seq (LitI (str "who")) (Class isWhiteSpace))))
      (Alt (Seq (LitI (str "what")) (Class isWhiteSpace))
           (Alt (Seq (LitI (str "why")) (Class isWhiteSpace))
                (Seq (LitI (str "how")) (Class isWhiteSpace)))).

(* /\r\n/g *)
Definition reCRLF : regex := Seq (Chr CR) (Chr LF).

(* /(?<=[.?!]\s+|\n{2,})/ *)
Definition reSentenceEnd : regex :=
  LookBehind
    (Alt (Seq (Class (fun c => Ascii.eqb c "." || Ascii.eqb c "?" || Ascii.eqb c "!"))
              (Plus (Class isWhiteSpace)))
         (AtLeast2 (Chr LF))).

Definition tokenizeWords (text : jsstring) : list jsstring :=
  filter truthy
    (split
       (replaceAll
          (replaceAll (toLowerCase text) reCurlyQuote (str "'"))
          reNotToken (str " "))
       reSpaces).

Record Deconstruction : Type := {
  facts : list jsstring;
  claims : list jsstring;
  questions : list jsstring
}.

(** The body of the [for] loop of [extractFactsAndClaims]. *)
Definition classifyStep (acc : Deconstruction) (s : jsstring) : Deconstruction :=
  let low := toLowerCase s in
  if test s reNumeric || test s reFactWord then
    {| facts := facts acc ++ [trim s]; claims := claims acc; questions := questions acc |}
  else if test low reClaimWord then
    {| facts := facts acc; claims := claims acc ++ [trim s]; questions := questions acc |}
  else if test (trim s) reEndsQuestion || test s reInterrogative then
    {| facts := facts acc; claims := claims acc; questions := questions acc ++ [trim s] |}
  else
    {| facts := facts acc ++ [trim s]; claims := claims acc; questions := questions acc |}.

Definition extractFactsAndClaims (sentences : list jsstring) : Deconstruction :=
  fold_left classifyStep sentences {| facts := []; claims := []; questions := [] |}.

Record Keyword : Type := { keyword : jsstring; count : nat }.

(** The callback of [words.forEach] in [scoreKeywords]. *)
Definition countWord (freq : jsobject nat) (w : jsstring) : jsobject nat :=
  if STOPWORDS_has w || (length w <=? 2) then freq
  else objSet freq w (match objGet freq w with Some n => n | None => 0 end + 1).

(** The comparator [(a,b) => b[1]-a[1]]. *)
Definition byCountDesc (a b : jsstring * nat) : Z :=
  (Z.of_nat (snd b) - Z.of_nat (snd a))%Z.

Definition scoreKeywords (words : list jsstring) : list Keyword :=
  let freq := fold_left countWord words [] in
  let arr := sortBy byCountDesc (Object_entries freq) in
  map (fun e => {| keyword := fst e; count := snd e |}) (firstn 12 arr).

Module Matched.
Record t : Type := { sentence : jsstring; matches : list jsstring; length : nat }.
End Matched.

Module Focal.
Record t : Type := { id : jsstring; summary : jsstring; triggers : list jsstring }.
End Focal.

Module Micro.
Record t : Type := { id : jsstring; keyword : jsstring }.
End Micro.

Record FocalPoints : Type := { focal : list Focal.t; micro : list Micro.t }.

(** The comparator
    [(a,b) => (b.matches.length - a.matches.length) || (b.length - a.length)]. *)
Definition byMatchesThenLength (a b : Matched.t) : Z :=
  let d := (Z.of_nat (List.length (Matched.matches b))
            - Z.of_nat (List.length (Matched.matches a)))%Z in
  if (d =? 0)%Z
  then (Z.of_nat (Matched.length b) - Z.of_nat (Matched.length a))%Z
  else d.

(** [`${prefix}${i+1}`]. *)
Definition numberedId (prefix : string) (i : nat) : jsstring :=
  str prefix ++ NtoDecimal (N.of_nat (i + 1)).

Definition topKeywords (keywords : list Keyword) : list jsstring :=
  map keyword (firstn (Nat.min 6 (List.length keywords)) keywords).

(** The body of the [for] loop of [identifyFocalPoints]. *)
Definition matchStep (topK : list jsstring) (matched : list Matched.t) (s : jsstring)
  : list Matched.t :=
  let lw := toLowerCase s in
  let matches := filter (fun k => includes lw k) topK in
  if negb (List.length matches =? 0) then
    matched ++ [{| Matched.sentence := trim s;
                   Matched.matches := matches;
                   Matched.length := List.length s |}]
  else matched.

Definition identifyFocalPoints (sentences : list jsstring) (keywords : list Keyword)
  : FocalPoints :=
  let topK := topKeywords keywords in
  let matched := fold_left (matchStep topK) sentences [] in
  let matched := sortBy byMatchesThenLength matched in
  {| focal := mapi (fun m i => {| Focal.id := numberedId "F" i;
                                  Focal.summary := Matched.sentence m;
                                  Focal.triggers := Matched.matches m |})
                   (firstn 5 matched);
     micro := mapi (fun k i => {| Micro.id := numberedId "K" i;
                                  Micro.keyword := k |})
                   topK |}.

Module Proposal.
Record t : Type := {
  id : jsstring;
  problem : jsstring;
  proposals : list jsstring;
  principles : list jsstring
}.
End Proposal.

Definition actTriage : jsstring :=
  str "Triage: reproduce, add labels, assign owner, prioritize.".
Definition actAutomate : jsstring :=
  str "Automate: create a minimal workflow to notify assignees only when label + unassigned.".
Definition actSecurityAudit : jsstring :=
  str "Security audit: list workflows that use tokens; restrict job permissions; rotate tokens.".
Definition actInstrument : jsstring :=
  str "Instrument: add verbose logging and dry-run option before any push actions.".
Definition actValidate : jsstring :=
  str "Validate: ensure email sending does not perform git operations; use read-only tokens for notifications.".
Definition actFallback : jsstring :=
  str "Fallback: add a non-invasive channel (issue comment) as backup notification.".
Definition actClarify : jsstring :=
  str "Ask clarifying question about intent and constraints; propose a minimal PoC (one-file) to test.".

Definition issueGroup (s : jsstring) : bool :=
  includes s (str "issue") || includes s (str "bug") || includes s (str "label").
Definition workflowGroup (s : jsstring) : bool :=
  includes s (str "workflow") || includes s (str "cron")
  || includes s (str "gh token") || includes s (str "secret").
Definition emailGroup (s : jsstring) : bool :=
  includes s (str "email") || includes s (str "notify").

(** The actions pushed for one focal point, before [slice(0,3)]. *)
Definition collectActions (s : jsstring) : list jsstring :=
  let actions := [] in
  let actions := if issueGroup s then actions ++ [actTriage; actAutomate] else actions in
  let actions := if workflowGroup s then actions ++ [actSecurityAudit; actInstrument] else actions in
  let actions := if emailGroup s then actions ++ [actValidate; actFallback] else actions in
  if List.length actions =? 0 then actions ++ [actClarify] else actions.

Definition propose (fp : Focal.t) : Proposal.t :=
  let s := toLowerCase (Focal.summary fp) in
  {| Proposal.id := Focal.id fp;
     Proposal.problem := Focal.summary fp;
     Proposal.proposals := firstn 3 (collectActions s);
     Proposal.principles := map str ["Simple";"Efficient";"Pragmatic";"Safe"]%string |}.

Definition reArchitect (focalPoints : FocalPoints) : list Proposal.t :=
  map propose (focal focalPoints).

Record Meta : Type := { timestamp : jsstring; sourceSize : nat }.

Record Report : Type := {
  meta : Meta;
  deconstruction : Deconstruction;
  keywords : list Keyword;
  focalPoints : FocalPoints;
  rearchitecture : list Proposal.t
}.

(** [now] stands for [new Date().toISOString()]. *)
Definition summarizeJSON (now : jsstring) (origText : jsstring) (decon : Deconstruction)
           (keywords : list Keyword) (focal : FocalPoints)
           (proposals : list Proposal.t) : Report :=
  {| meta := {| timestamp := now; sourceSize := List.length origText |};
     deconstruction := decon;
     keywords := keywords;
     focalPoints := focal;
     rearchitecture := proposals |}.

(** The sentence splitter of [main]. *)
Definition splitSentences (input : jsstring) : list jsstring :=
  filter truthy (map trim (split (replaceAll input reCRLF [LF]) reSentenceEnd)).

(** The pure part of [main]: everything between the size guard and the
    write of the result file. *)
Definition pipeline (now : jsstring) (input : jsstring) : Report :=
  let sentences := splitSentences input in
  let decon := extractFactsAndClaims sentences in
  let words := tokenizeWords input in
  let keywords := scoreKeywords words in
  let focal := identifyFocalPoints sentences keywords in
  let proposals := reArchitect focal in
  summarizeJSON now input decon keywords focal proposals.

(* ================================================================= *)
(** ** Effects of [main] *)

(** What a run does to the outside world, in order. *)
Inductive Event : Type :=
| ConsoleError (msg : jsstring)            (* console.error(msg) *)
| ConsoleLog (r : Report)                  (* console.log(JSON.stringify(r, null, 2)) *)
| MkdirSync (dir : jsstring)               (* fs.mkdirSync(dir, {recursive: true}) *)
| WriteFileSync (dir file : jsstring) (r : Report).
                                           (* fs.writeFileSync(path.join(dir, file), JSON.stringify(r, null, 2)) *)

(** What a run reads from the outside world besides its input. *)
Record Host : Type := {
  isoNow : jsstring;      (* new Date().toISOString() *)
  msNow : N;              (* Date.now() *)
  outDirExists : bool     (* fs.existsSync(outDir) *)
}.

Inductive Outcome (A : Type) : Type :=
| Returned (a : A)
| Exited (exitCode : nat).     (* process.exit(exitCode) *)

Arguments Returned {A} a.
Arguments Exited {A} exitCode.

(** A computation appends to the trace of events and either returns or
    leaves the process. *)
Definition Proc (A : Type) : Type := list Event -> Outcome A * list Event.

Definition ret (A : Type) (a : A) : Proc A := fun tr => (Returned a, tr).

Definition bind (A B : Type) (m : Proc A) (f : A -> Proc B) : Proc B :=
  fun tr =>
    match m tr with
    | (Returned a, tr') => f a tr'
    | (Exited c, tr') => (Exited c, tr')
    end.

Definition emit (e : Event) : Proc unit := fun tr => (Returned tt, tr ++ [e]).

Definition process_exit (A : Type) (c : nat) : Proc A := fun tr => (Exited c, tr).

Definition when (b : bool) (m : Proc unit) : Proc unit :=
  if b then m else ret tt.

Notation "m1 ;; m2" := (bind m1 (fun _ => m2)) (at level 61, right associativity).

(** [!input] for a value that is [null] or a string. *)
Definition falsy (input : option jsstring) : bool :=
  match input with
  | None => true
  | Some t => negb (truthy t)
  end.

Definition outDir : jsstring := str "./dr_results".

(** [main] from the point where [input] has been read from the file, the
    positional arguments or standard input ([None] is [null]). *)
Definition main (h : Host) (input : option jsstring) : Proc unit :=
  when (falsy input)
       (emit (ConsoleError (str "No input provided. Use --file or pipe text into the script.")) ;;
        process_exit unit 2) ;;
  let text := match input with Some t => t | None => [] end in
  when (200000 <? N.of_nat (List.length text))%N
       (emit (ConsoleError (str "Input too large (>200k chars). Aborting.")) ;;
        process_exit unit 3) ;;
  let result := pipeline (isoNow h) text in
  when (negb (outDirExists h)) (emit (MkdirSync outDir)) ;;
  let file := str "dr_result_" ++ NtoDecimal (msNow h) ++ str ".json" in
  emit (WriteFileSync outDir file result) ;;
  emit (ConsoleLog result) ;;
  emit (ConsoleError (str "Wrote " ++ outDir ++ str "/" ++ file)).

Definition run (h : Host) (input : option jsstring) : Outcome unit * list Event :=
  main h input [].

(* ================================================================= *)
(** ** Notions used to state the properties *)

Inductive Classification : Type := Fact | Claim | Question.

(** The bucket that [classifyStep] extends for a sentence. *)
Definition classify (s : jsstring) : Classification :=
  if test s reNumeric || test s reFactWord then Fact
  else if test (toLowerCase s) reClaimWord then Claim
  else if test (trim s) reEndsQuestion || test s reInterrogative then Question
  else Fact.

Definition Classification_eqb (a b : Classification) : bool :=
  match a, b with
  | Fact, Fact | Claim, Claim | Question, Question => true
  | _, _ => false
  end.

(** The sentences of a sequence that are given the class [c], in order. *)
Definition ofClass (c : Classification) (sentences : list jsstring) : list jsstring :=
  filter (fun s => Classification_eqb (classify s) c) sentences.

Definition push (c : Classification) (s : jsstring) (d : Deconstruction) : Deconstruction :=
  match c with
  | Fact => {| facts := facts d ++ [s]; claims := claims d; questions := questions d |}
  | Claim => {| facts := facts d; claims := claims d ++ [s]; questions := questions d |}
  | Question => {| facts := facts d; claims := claims d; questions := questions d ++ [s] |}
  end.

Definition allWhiteSpace (s : jsstring) : Prop :=
  Forall (fun c => isWhiteSpace c = true) s.

(** [Before x y l]: some occurrence of [x] in [l] comes before some
    occurrence of [y]. *)
Inductive Before (A : Type) (x y : A) : list A -> Prop :=
| Before_here l : In y l -> Before x y (x :: l)
| Before_later z l : Before x y l -> Before x y (z :: l).

(** [words.indexOf(w)], with the length of [words] when [w] is absent. *)
Fixpoint indexOf (w : jsstring) (words : list jsstring) : nat :=
  match words with
  | [] => 0
  | x :: t => if str_eqb x w then 0 else S (indexOf w t)
  end.

(** The order of two distinct keys in [Object.entries]: array indices by
    value and before the other keys, the other keys by first occurrence
    among the counted words. *)
Definition entryOrder (words : list jsstring) (x y : jsstring) : Prop :=
  match isArrayIndex x, isArrayIndex y with
  | true, true => (indexValue x < indexValue y)%N
  | true, false => True
  | false, true => False
  | false, false => indexOf x words < indexOf y words
  end.

(** Ties between keywords of equal count are broken by [order]. *)
Definition tiesFollow (order : jsstring -> jsstring -> Prop) (out : list Keyword) : Prop :=
  forall i j a b,
    i < j -> nth_error out i = Some a -> nth_error out j = Some b ->
    count a = count b -> order (keyword a) (keyword b).

(** First-seen order: the first occurrence of [x] among the words comes
    before the first occurrence of [y]. *)
Definition firstSeen (words : list jsstring) (x y : jsstring) : Prop :=
  indexOf x words < indexOf y words.

(** The test that lets a word into the counts. *)
Definition counted (w : jsstring) : bool :=
  negb (STOPWORDS_has w || (length w <=? 2)).

(** Rule 1 of the classifier: the condition of the first [if]. *)
Definition factRule (s : jsstring) : bool :=
  test s reNumeric || test s reFactWord.

(** Rule 2 of the classifier: the condition of the second [if]. *)
Definition claimRule (s : jsstring) : bool :=
  test (toLowerCase s) reClaimWord.

(** [w] occurs in [s] at index [i]. *)
Definition occursAt (w s : jsstring) (i : nat) : bool := startsWith w (skipn i s).

(** [w] occurs in [s] at index [i] up to the case of ASCII letters. *)
Fixpoint startsWithI (w s : jsstring) : bool :=
  match w, s with
  | [], _ => true
  | x :: w', y :: s' => ciEq x y && startsWithI w' s'
  | _ :: _, [] => false
  end.

(** [w] occurs in [s] as a whole word: with a word boundary at both ends. *)
Definition wholeWordAt (w s : jsstring) (i : nat) : Prop :=
  occursAt w s i = true
  /\ wordBoundary s i = true /\ wordBoundary s (i + length w) = true.

(** The question rule in the words of the specification: the sentence
    starts, in any letter case, with one of the four interrogatives followed
    by white space. *)
Definition startsWithInterrogative (s : jsstring) : bool :=
  existsb (fun w => startsWithI w s
                    && match skipn (length w) s with
                       | c :: _ => isWhiteSpace c
                       | [] => false
                       end)
          (map str ["who"; "what"; "why"; "how"]%string).

Definition endsWithQuestionMark (s : jsstring) : bool :=
  match rev (trim s) with
  | c :: _ => Ascii.eqb c "?"
  | [] => false
  end.

(** The report of a run that finds no sentence and no keyword. *)
Definition emptyReport (now : jsstring) (size : nat) : Report :=
  {| meta := {| timestamp := now; sourceSize := size |};
     deconstruction := {| facts := []; claims := []; questions := [] |};
     keywords := [];
     focalPoints := {| focal := []; micro := [] |};
     rearchitecture := [] |}.

(** The name of the result file of a run. *)
Definition resultFile (h : Host) : jsstring :=
  str "dr_result_" ++ NtoDecimal (msNow h) ++ str ".json".

(** The code units a token is made of: [a-z], [0-9], apostrophe, hyphen. *)
Definition tokenChar (c : ascii) : bool :=
  isLowerAZ c || isDigit c || Ascii.eqb c "'" || Ascii.eqb c "-".

(** How many times [k] occurs among [words]. *)
Definition occurrences (k : jsstring) (words : list jsstring) : nat :=
  length (filter (str_eqb k) words).

(** The words of the pattern of [reFactWord]. *)
Definition factWords : list jsstring :=
  map str ["version";"error";"commit";"bug";"issue";"cron";"workflow"]%string.

(** The punctuation after which the splitter cuts: [.], [?], [!]. *)
Definition isTerminator (c : ascii) : bool :=
  Ascii.eqb c "." || Ascii.eqb c "?" || Ascii.eqb c "!".

(** The rank order of two sentence-kind focal points: more triggers first,
    and among equals the longer summary first. *)
Definition ranksNoLower (a b : Focal.t) : Prop :=
  length (Focal.triggers b) < length (Focal.triggers a)
  \/ (length (Focal.triggers b) = length (Focal.triggers a)
      /\ length (Focal.summary b) <= length (Focal.summary a)).

(** The code units of [s] from index [a] up to index [b] all satisfy [p]. *)
Definition allBetween (p : ascii -> bool) (s : jsstring) (a b : nat) : Prop :=
  forall k, a <= k < b -> exists c, nth_error s k = Some c /\ p c = true.

(** [freq[k] || 0]. *)
Definition countOf (freq : jsobject nat) (k : jsstring) : nat :=
  match objGet freq k with
  | Some n => n
  | None => 0
  end.

(* ================================================================= *)
(** * Properties *)

Unset Implicit Arguments.

(** ** Strings *)

Lemma str_eqb_eq (a b : jsstring) : str_eqb a b = true <-> a = b.
Proof.
  revert b; induction a as [|x a IH]; intros [|y b]; simpl; split;
    try congruence; try reflexivity.
  - intros H. apply andb_true_iff in H as [H1 H2].
    apply Ascii.eqb_eq in H1. apply IH in H2. congruence.
  - intros H. injection H as -> ->. rewrite Ascii.eqb_refl. simpl.
    now apply IH.
Qed.

Lemma str_eqb_refl (a : jsstring) : str_eqb a a = true.
Proof. now apply str_eqb_eq. Qed.

Lemma str_eqb_neq (a b : jsstring) : str_eqb a b = false <-> a <> b.
Proof.
  split.
  - intros H E. apply str_eqb_eq in E. congruence.
  - intros H. destruct (str_eqb a b) eqn:E; [|reflexivity].
    apply str_eqb_eq in E. contradiction.
Qed.

Lemma dropWhile_all (p : ascii -> bool) (s : jsstring) :
  Forall (fun c => p c = true) s -> dropWhile p s = [].
Proof.
  induction 1 as [|c s Hc _ IH]; simpl; [reflexivity|]. now rewrite Hc.
Qed.

Lemma dropWhile_suffix (p : ascii -> bool) (s : jsstring) :
  exists pre, s = pre ++ dropWhile p s /\ Forall (fun c => p c = true) pre.
Proof.
  induction s as [|c s (pre & E & F)]; simpl.
  - exists []. split; [reflexivity|constructor].
  - destruct (p c) eqn:Hc.
    + exists (c :: pre). split; [simpl; congruence|now constructor].
    + exists []. split; [reflexivity|constructor].
Qed.

Lemma stripWhiteSpace_app (a b : jsstring) :
  stripWhiteSpace (a ++ b) = stripWhiteSpace a ++ stripWhiteSpace b.
Proof. apply filter_app. Qed.

Lemma stripWhiteSpace_rev (a : jsstring) :
  stripWhiteSpace (rev a) = rev (stripWhiteSpace a).
Proof.
  unfold stripWhiteSpace. induction a as [|c a IH]; simpl; [reflexivity|].
  rewrite filter_app, IH. simpl.
  destruct (isWhiteSpace c); simpl; [now rewrite app_nil_r|reflexivity].
Qed.

Lemma stripWhiteSpace_all (a : jsstring) :
  Forall (fun c => isWhiteSpace c = true) a -> stripWhiteSpace a = [].
Proof.
  induction 1 as [|c s Hc _ IH]; simpl; [reflexivity|]. now rewrite Hc.
Qed.

Lemma stripWhiteSpace_trimStart (s : jsstring) :
  stripWhiteSpace (trimStart s) = stripWhiteSpace s.
Proof.
  unfold trimStart. destruct (dropWhile_suffix isWhiteSpace s) as (pre & E & F).
  rewrite E at 2. rewrite stripWhiteSpace_app, (stripWhiteSpace_all _ F).
  reflexivity.
Qed.

Lemma stripWhiteSpace_trim (s : jsstring) :
  stripWhiteSpace (trim s) = stripWhiteSpace s.
Proof.
  unfold trim, trimEnd.
  rewrite stripWhiteSpace_rev.
  change (dropWhile isWhiteSpace (rev (trimStart s))) with (trimStart (rev (trimStart s))).
  rewrite stripWhiteSpace_trimStart, stripWhiteSpace_rev, rev_involutive.
  apply stripWhiteSpace_trimStart.
Qed.

Lemma trim_all_white (s : jsstring) :
  Forall (fun c => isWhiteSpace c = true) s -> trim s = [].
Proof.
  intros F. unfold trim, trimEnd, trimStart.
  now rewrite (dropWhile_all _ _ F).
Qed.

Lemma dropWhile_idem (p : ascii -> bool) (s : jsstring) :
  dropWhile p (dropWhile p s) = dropWhile p s.
Proof.
  induction s as [|c s IH]; simpl; [reflexivity|].
  destruct (p c) eqn:Hc; [exact IH|]. simpl. now rewrite Hc.
Qed.

Lemma dropWhile_head (p : ascii -> bool) (s : jsstring) :
  match dropWhile p s with
  | [] => True
  | c :: _ => p c = false
  end.
Proof.
  induction s as [|c s IH]; simpl; [exact I|].
  destruct (p c) eqn:Hc; [exact IH|exact Hc].
Qed.

(** Stripping the end of a string keeps its first code unit in place. *)
Lemma trimEnd_head (c : ascii) (s : jsstring) :
  isWhiteSpace c = false -> exists t, trimEnd (c :: s) = c :: t.
Proof.
  intros Hc. unfold trimEnd. simpl.
  destruct (dropWhile_suffix isWhiteSpace (rev s ++ [c])) as (pre & E & F).
  assert (exists u, dropWhile isWhiteSpace (rev s ++ [c]) = u ++ [c]) as [u Hu].
  { clear E F pre. induction (rev s) as [|x l IH]; simpl.
    - rewrite Hc. now exists [].
    - destruct (isWhiteSpace x); [exact IH|]. now exists (x :: l). }
  rewrite Hu, rev_app_distr. simpl. now eexists.
Qed.

Lemma trim_idem (s : jsstring) : trim (trim s) = trim s.
Proof.
  unfold trim at 1. unfold trimStart.
  assert (dropWhile isWhiteSpace (trim s) = trim s) as ->.
  { unfold trim. pose proof (dropWhile_head isWhiteSpace s) as H.
    unfold trimStart. destruct (dropWhile isWhiteSpace s) as [|c t] eqn:E.
    - reflexivity.
    - destruct (trimEnd_head c t H) as [u Hu]. rewrite Hu. simpl. now rewrite H. }
  unfold trim, trimEnd. rewrite rev_involutive, dropWhile_idem. reflexivity.
Qed.

(* ================================================================= *)
(** ** The matcher against the declarative reading *)

Section MatcherFacts.

Variable s : jsstring.

Lemma nth_error_lt (i : nat) (c : ascii) : nth_error s i = Some c -> i < length s.
Proof. intros H. apply nth_error_Some. congruence. Qed.

(** A match never moves left and never ends past the end of the string. *)
Lemma Matches_range (r : regex) (i j : nat) :
  Matches s r i j -> i <= j /\ (i < j -> j <= length s).
Proof.
  induction 1 as [ | p i c Hc _ | | | | | | | | | ]; try (split; lia).
  apply nth_error_lt in Hc. split; lia.
Qed.

Lemma starLoop_sound (ma : nat -> (nat -> option nat) -> option nat) (a : regex)
      (k : nat -> option nat) :
  (forall i k' e, ma i k' = Some e -> exists j, Matches s a i j /\ k' j = Some e) ->
  forall fuel i e, starLoop ma k fuel i = Some e ->
                   exists j, Matches s (Star a) i j /\ k j = Some e.
Proof.
  intros Hma. induction fuel as [|f IH]; intros i e H; simpl in H.
  - exists i. split; [constructor|exact H].
  - destruct (ma i _) as [e0|] eqn:E.
    + injection H as ->. apply Hma in E as (j & Hj & Hk).
      destruct (i <? j) eqn:Hlt; [|discriminate].
      apply Nat.ltb_lt in Hlt. apply IH in Hk as (l & Hl & Hkl).
      exists l. split; [|exact Hkl]. now apply MStarS with j.
    + exists i. split; [constructor|exact H].
Qed.

Lemma rmatch_sound (r : regex) :
  forall i k e, rmatch s r i k = Some e ->
                exists j, Matches s r i j /\ k j = Some e.
Proof.
  induction r as [ | p | a IHa b IHb | a IHa b IHb | a IHa | | | | a IHa];
    intros i k e H; cbn [rmatch] in H.
  - exists i. split; [constructor|exact H].
  - destruct (nth_error s i) as [c|] eqn:Hc; [|discriminate].
    destruct (p c) eqn:Hp; [|discriminate].
    exists (S i). split; [now apply MClass with c|exact H].
  - apply IHa in H as (j & Hj & H). apply IHb in H as (l & Hl & H).
    exists l. split; [now apply MSeq with j|exact H].
  - destruct (rmatch s a i k) as [e0|] eqn:E.
    + injection H as ->. apply IHa in E as (j & Hj & Hk).
      exists j. split; [now apply MAltL|exact Hk].
    + apply IHb in H as (j & Hj & Hk).
      exists j. split; [now apply MAltR|exact Hk].
  - now apply starLoop_sound with (ma := rmatch s a) (fuel := length s - i).
  - destruct (i =? 0) eqn:E; [|discriminate]. apply Nat.eqb_eq in E as ->.
    exists 0. split; [constructor|exact H].
  - destruct (i =? length s) eqn:E; [|discriminate]. apply Nat.eqb_eq in E as ->.
    exists (length s). split; [constructor|exact H].
  - destruct (wordBoundary s i) eqn:E; [|discriminate].
    exists i. split; [now constructor|exact H].
  - destruct (existsb _ _) eqn:E; [|discriminate].
    apply existsb_exists in E as (j & _ & Hj).
    destruct (rmatch s a j _) as [e0|] eqn:E0; [|discriminate].
    apply IHa in E0 as (l & Hl & Hk).
    destruct (l =? i) eqn:Eli; [|discriminate]. apply Nat.eqb_eq in Eli as ->.
    exists i. split; [now apply MLookBehind with j|exact H].
Qed.

Lemma starLoop_complete (ma : nat -> (nat -> option nat) -> option nat) (a : regex)
      (k : nat -> option nat) :
  (forall i j k', Matches s a i j -> k' j <> None -> ma i k' <> None) ->
  forall fuel i j, length s - i <= fuel -> Matches s (Star a) i j -> k j <> None ->
                   starLoop ma k fuel i <> None.
Proof.
  intros Hma. induction fuel as [|f IH]; intros i j Hf HM Hk; simpl.
  - inversion HM as [ | | | | | a' i' | a' i' j' l' Ha Hlt Hs | | | | ]; subst.
    + exact Hk.
    + apply Matches_range in Ha. lia.
  - inversion HM as [ | | | | | a' i' | a' i' j' l' Ha Hlt Hs | | | | ]; subst.
    + destruct (ma _ _); [discriminate|exact Hk].
    + assert (ma i (fun j0 => if i <? j0 then starLoop ma k f j0 else None) <> None) as Hne.
      { apply Hma with j'; [exact Ha|].
        apply Nat.ltb_lt in Hlt as Hlt'. rewrite Hlt'.
        apply IH with j; [lia|exact Hs|exact Hk]. }
      destruct (ma i _); [discriminate|contradiction].
Qed.

Lemma rmatch_complete (r : regex) :
  forall i j k, Matches s r i j -> k j <> None -> rmatch s r i k <> None.
Proof.
  induction r as [ | p | a IHa b IHb | a IHa b IHb | a IHa | | | | a IHa];
    intros i j k HM Hk; cbn [rmatch].
  - inversion HM; subst. exact Hk.
  - inversion HM as [ | p' i' c Hc Hp | | | | | | | | | ]; subst.
    now rewrite Hc, Hp.
  - inversion HM as [ | | a' b' i' j' l' H1 H2 | | | | | | | | ]; subst.
    apply IHa with j'; [exact H1|]. now apply IHb with j.
  - inversion HM as [ | | | a' b' i' j' H1 | a' b' i' j' H1 | | | | | | ]; subst.
    + pose proof (IHa _ _ _ H1 Hk). destruct (rmatch s a i k); [discriminate|contradiction].
    + pose proof (IHb _ _ _ H1 Hk). destruct (rmatch s a i k); [discriminate|exact H].
  - apply starLoop_complete with (a := a) (j := j); auto.
  - inversion HM; subst. exact Hk.
  - inversion HM; subst. now rewrite Nat.eqb_refl.
  - inversion HM as [ | | | | | | | | | i' Hb | ]; subst. now rewrite Hb.
  - inversion HM as [ | | | | | | | | | | a' i' j' Ha ]; subst.
    assert (existsb (fun j0 => isSome (rmatch s a j0 (fun e => if e =? j then Some e else None)))
                    (seq 0 (S j)) = true) as ->; [|exact Hk].
    apply existsb_exists. exists j'. split.
    + apply in_seq. apply Matches_range in Ha. lia.
    + pose proof (IHa j' j (fun e => if e =? j then Some e else None) Ha) as H.
      cbv beta in H. rewrite Nat.eqb_refl in H.
      destruct (rmatch s a j' _); [reflexivity|].
      exfalso. apply H; [discriminate|reflexivity].
Qed.

(** An anchored attempt succeeds exactly when the pattern matches there. *)
Lemma execAt_Some (r : regex) (i e : nat) :
  execAt s r i = Some e -> Matches s r i e.
Proof.
  intros H. apply rmatch_sound in H as (j & Hj & E). now injection E as ->.
Qed.

Lemma execAt_None (r : regex) (i : nat) :
  execAt s r i = None <-> forall j, ~ Matches s r i j.
Proof.
  split.
  - intros H j HM. apply (rmatch_complete r i j Some HM); [discriminate|exact H].
  - intros H. destruct (execAt s r i) as [e|] eqn:E; [|reflexivity].
    apply execAt_Some in E. now apply H in E.
Qed.

Lemma execAt_ge (r : regex) (i e : nat) : execAt s r i = Some e -> i <= e.
Proof. intros H. apply execAt_Some, Matches_range in H. lia. Qed.

Lemma searchFrom_Some (r : regex) (fuel from b e : nat) :
  searchFrom s r fuel from = Some (b, e) ->
  from <= b <= from + fuel /\ execAt s r b = Some e
  /\ forall i, from <= i < b -> execAt s r i = None.
Proof.
  revert from. induction fuel as [|f IH]; intros from H; simpl in H.
  - destruct (execAt s r from) as [e0|] eqn:E; [|discriminate].
    injection H as <- <-. repeat split; try lia. exact E.
  - destruct (execAt s r from) as [e0|] eqn:E.
    + injection H as <- <-. repeat split; try lia. exact E.
    + apply IH in H as (Hb & He & Hi). repeat split; try lia; [exact He|].
      intros i Hi'. destruct (Nat.eq_dec i from) as [->|Hne]; [exact E|].
      apply Hi. lia.
Qed.

Lemma searchFrom_None (r : regex) (fuel from : nat) :
  searchFrom s r fuel from = None <->
  forall i, from <= i <= from + fuel -> execAt s r i = None.
Proof.
  revert from. induction fuel as [|f IH]; intros from; simpl.
  - destruct (execAt s r from) as [e0|] eqn:E; split; try discriminate.
    + intros H. rewrite (H from) in E; [discriminate|lia].
    + intros _ i Hi. now replace i with from by lia.
    + reflexivity.
  - destruct (execAt s r from) as [e0|] eqn:E; split; try discriminate.
    + intros H. rewrite (H from) in E; [discriminate|lia].
    + intros H i Hi. destruct (Nat.eq_dec i from) as [->|Hne]; [exact E|].
      apply (proj1 (IH (S from)) H). lia.
    + intros H. apply IH. intros i Hi. apply H. lia.
Qed.

(** [test] is true exactly when the pattern matches at some index. *)
Lemma test_true (r : regex) :
  test s r = true <-> exists i j, i <= length s /\ Matches s r i j.
Proof.
  unfold test, search. simpl. rewrite Nat.sub_0_r.
  destruct (searchFrom s r (length s) 0) as [[b e]|] eqn:E; split;
    try discriminate; try reflexivity.
  - intros _. apply searchFrom_Some in E as (Hb & He & _).
    exists b, e. split; [lia|now apply execAt_Some].
  - intros (i & j & Hi & HM).
    assert (execAt s r i = None) as H
      by (apply (proj1 (searchFrom_None r (length s) 0) E); lia).
    exfalso. exact (proj1 (execAt_None r i) H j HM).
Qed.

End MatcherFacts.

(* ================================================================= *)
(** ** [split] and [replaceAll] *)

Lemma substring_skipn (s : jsstring) (p q : nat) :
  p <= q -> substring s p q ++ skipn q s = skipn p s.
Proof.
  intros H. unfold substring.
  replace (skipn q s) with (skipn (q - p) (skipn p s)).
  - apply firstn_skipn.
  - rewrite skipn_skipn. f_equal. lia.
Qed.

Lemma substring_to_end (s : jsstring) (p : nat) :
  substring s p (length s) = skipn p s.
Proof.
  unfold substring. apply firstn_all2. rewrite length_skipn. lia.
Qed.

Lemma substring_empty (s : jsstring) (p : nat) : substring s p p = [].
Proof. unfold substring. now rewrite Nat.sub_diag. Qed.

Lemma Forall_skipn (P : ascii -> Prop) (s : jsstring) (p : nat) :
  Forall P s -> Forall P (skipn p s).
Proof.
  intros H. rewrite <- (firstn_skipn p s) in H. now apply Forall_app in H.
Qed.

Lemma Forall_firstn (P : ascii -> Prop) (s : jsstring) (p : nat) :
  Forall P s -> Forall P (firstn p s).
Proof.
  intros H. rewrite <- (firstn_skipn p s) in H. now apply Forall_app in H.
Qed.

Lemma Forall_substring (P : ascii -> Prop) (s : jsstring) (p q : nat) :
  Forall P s -> Forall P (substring s p q).
Proof.
  intros H. unfold substring. now apply Forall_firstn, Forall_skipn.
Qed.

Section SplitFacts.

Variable s : jsstring.
Variable r : regex.

(** More fuel than the measure of the loop state changes nothing: the
    fuel given by [split] is never used up. *)
Lemma splitLoop_fuel (f1 : nat) :
  forall f2 p q acc,
    p <= q -> splitMeasure s p q < f1 -> splitMeasure s p q < f2 ->
    splitLoop s r f1 p q acc = splitLoop s r f2 p q acc.
Proof.
  unfold splitMeasure.
  induction f1 as [|f1 IH]; intros [|f2] p q acc Hpq H1 H2; try lia. simpl.
  destruct (q <? length s) eqn:Hq; [|reflexivity].
  apply Nat.ltb_lt in Hq.
  assert (Hstep : splitLoop s r f1 p (S q) acc = splitLoop s r f2 p (S q) acc).
  { apply IH; [lia| |]; destruct (p <? q), (p <? S q); lia. }
  destruct (execAt s r q) as [e0|] eqn:E; [|exact Hstep].
  apply execAt_ge in E.
  destruct (Nat.min e0 (length s) =? p) eqn:Ep; [exact Hstep|].
  apply Nat.eqb_neq in Ep.
  apply IH; [lia| |]; rewrite Nat.ltb_irrefl.
  - destruct (p <? q) eqn:Hlt; [lia|]. apply Nat.ltb_ge in Hlt. lia.
  - destruct (p <? q) eqn:Hlt; [lia|]. apply Nat.ltb_ge in Hlt. lia.
Qed.

Lemma split_fuel (c : ascii) (t : jsstring) (fuel : nat) :
  s = c :: t -> 2 * length s < fuel ->
  split s r = splitLoop s r fuel 0 0 [].
Proof.
  intros E H. unfold split. rewrite E at 1.
  apply splitLoop_fuel; unfold splitMeasure; simpl; lia.
Qed.

(** A pattern that only ever matches the empty string (a lookbehind)
    cuts the string without dropping anything. *)
Hypothesis empty_matches : forall q e, execAt s r q = Some e -> e = q.

Lemma splitLoop_concat (fuel : nat) :
  forall p q acc, p <= q ->
    concat (splitLoop s r fuel p q acc) = concat acc ++ skipn p s.
Proof.
  induction fuel as [|f IH]; intros p q acc Hpq; simpl.
  - now rewrite concat_app, substring_to_end; simpl; rewrite app_nil_r.
  - destruct (q <? length s) eqn:Hq.
    + apply Nat.ltb_lt in Hq.
      destruct (execAt s r q) as [e0|] eqn:E; [|apply IH; lia].
      apply empty_matches in E as ->.
      rewrite Nat.min_l by lia.
      destruct (q =? p) eqn:Ep; [apply IH; lia|].
      rewrite IH by lia. rewrite concat_app. simpl.
      rewrite app_nil_r, <- app_assoc. now rewrite substring_skipn.
    + now rewrite concat_app, substring_to_end; simpl; rewrite app_nil_r.
Qed.

End SplitFacts.

Lemma split_concat (s : jsstring) (r : regex) :
  (forall q e, execAt s r q = Some e -> e = q) -> concat (split s r) = s.
Proof.
  intros H. unfold split. destruct s as [|c t] eqn:E.
  - destruct (execAt [] r 0); reflexivity.
  - rewrite <- E in *. rewrite splitLoop_concat; [reflexivity|exact H|lia].
Qed.

Lemma execAt_LookBehind (s : jsstring) (a : regex) (q e : nat) :
  execAt s (LookBehind a) q = Some e -> e = q.
Proof.
  intros H. apply execAt_Some in H. now inversion H.
Qed.

(** Greedy [p+] over a string made of [p] only runs to the end. *)
Lemma starLoop_all (s : jsstring) (p : ascii -> bool) :
  Forall (fun c => p c = true) s ->
  forall fuel i, i <= length s -> length s - i <= fuel ->
    starLoop (rmatch s (Class p)) Some fuel i = Some (length s).
Proof.
  intros F. induction fuel as [|f IH]; intros i Hi Hf; simpl.
  - f_equal. lia.
  - destruct (nth_error s i) as [c|] eqn:Hc.
    + assert (p c = true) as ->
        by (apply (proj1 (Forall_forall _ s) F); now apply nth_error_In with i).
      apply nth_error_lt in Hc.
      assert ((i <? S i) = true) as -> by (apply Nat.ltb_lt; lia).
      rewrite IH by lia. reflexivity.
    + apply nth_error_None in Hc. f_equal. lia.
Qed.

Lemma execAt_Plus_all (s : jsstring) (p : ascii -> bool) :
  s <> [] -> Forall (fun c => p c = true) s ->
  execAt s (Plus (Class p)) 0 = Some (length s).
Proof.
  intros Hne F. destruct s as [|c t] eqn:E; [contradiction|]. rewrite <- E in *.
  unfold execAt, Plus. cbn [rmatch].
  assert (nth_error s 0 = Some c) as -> by now rewrite E.
  assert (p c = true) as -> by (inversion F; subst; congruence).
  assert (length s = S (length t)) by now rewrite E.
  apply starLoop_all; [exact F|lia|lia].
Qed.

(** Splitting a non-empty run of [p] on [p+] leaves two empty pieces. *)
Lemma split_Plus_all (s : jsstring) (p : ascii -> bool) :
  s <> [] -> Forall (fun c => p c = true) s ->
  split s (Plus (Class p)) = [[]; []].
Proof.
  intros Hne F. pose proof (execAt_Plus_all s p Hne F) as E.
  destruct s as [|c t] eqn:Es; [contradiction|]. rewrite <- Es in *.
  assert (Hlen : length s = S (length t)) by now rewrite Es.
  rewrite (split_fuel s (Plus (Class p)) c t (S (S (2 * length s))) Es) by lia.
  cbn [splitLoop].
  assert ((0 <? length s) = true) as -> by (apply Nat.ltb_lt; lia).
  rewrite E, Nat.min_id.
  assert ((length s =? 0) = false) as -> by (apply Nat.eqb_neq; lia).
  rewrite Nat.ltb_irrefl. now rewrite !substring_empty.
Qed.

Section ReplaceFacts.

Variable s : jsstring.
Variable r : regex.
Variable repl : jsstring.

Lemma search_Some (from b e : nat) :
  search s r from = Some (b, e) ->
  from <= b /\ b <= e /\ execAt s r b = Some e.
Proof.
  unfold search. destruct (from <=? length s); [|discriminate].
  intros H. apply searchFrom_Some in H as (Hb & He & _).
  pose proof (execAt_ge s r b e He). repeat split; try lia. exact He.
Qed.

Lemma search_Some_bound (from b e : nat) :
  search s r from = Some (b, e) -> b <= length s.
Proof.
  unfold search. destruct (from <=? length s) eqn:L; [|discriminate].
  apply Nat.leb_le in L.
  intros H. apply searchFrom_Some in H as (Hb & _ & _). lia.
Qed.

(** Each round moves [lastIndex] to the right, so the fuel given by
    [replaceAll] is never used up. *)
Lemma replaceLoop_fuel (f1 : nat) :
  forall f2 from copied,
    length s + 1 - from < f1 -> length s + 1 - from < f2 ->
    replaceLoop s r repl f1 from copied = replaceLoop s r repl f2 from copied.
Proof.
  induction f1 as [|f1 IH]; intros [|f2] from copied H1 H2; try lia. simpl.
  destruct (search s r from) as [[b e]|] eqn:E; [|reflexivity].
  pose proof (search_Some_bound from b e E) as Hb.
  apply search_Some in E as (Hfrom & He & _).
  do 2 f_equal.
  apply IH; (destruct (e =? b) eqn:Eb;
             [apply Nat.eqb_eq in Eb|apply Nat.eqb_neq in Eb]; lia).
Qed.

Lemma replaceAll_fuel (fuel : nat) :
  length s + 1 < fuel -> replaceAll s r repl = replaceLoop s r repl fuel 0 0.
Proof.
  intros H. unfold replaceAll. apply replaceLoop_fuel; lia.
Qed.

Lemma search_None (from : nat) :
  (forall i, execAt s r i = None) -> search s r from = None.
Proof.
  intros H. unfold search. destruct (from <=? length s); [|reflexivity].
  apply searchFrom_None. intros i _. apply H.
Qed.

(** Without any match [replace] returns the string as it is. *)
Lemma replaceAll_no_match :
  (forall i, execAt s r i = None) -> replaceAll s r repl = s.
Proof.
  intros H. unfold replaceAll. rewrite Nat.add_comm. simpl.
  now rewrite (search_None 0 H).
Qed.

(** When every matched stretch and the replacement are white space, the
    result has the non-white-space content of the source. *)
Lemma replaceLoop_strip :
  (forall b e, execAt s r b = Some e -> stripWhiteSpace (substring s b e) = []) ->
  stripWhiteSpace repl = [] ->
  forall fuel from copied, copied <= from ->
    stripWhiteSpace (replaceLoop s r repl fuel from copied)
    = stripWhiteSpace (skipn copied s).
Proof.
  intros Hm Hr. induction fuel as [|f IH]; intros from copied Hc; simpl.
  - reflexivity.
  - destruct (search s r from) as [[b e]|] eqn:E; [|reflexivity].
    apply search_Some in E as (Hb & He & Hx).
    rewrite !stripWhiteSpace_app, Hr, IH by (destruct (e =? b); lia).
    rewrite <- (substring_skipn s copied b) by lia.
    rewrite <- (substring_skipn s b e) by lia.
    rewrite !stripWhiteSpace_app, (Hm b e Hx). reflexivity.
Qed.

Lemma replaceLoop_Forall (P : ascii -> Prop) :
  Forall P s -> Forall P repl ->
  forall fuel from copied, Forall P (replaceLoop s r repl fuel from copied).
Proof.
  intros Hs Hr. induction fuel as [|f IH]; intros from copied; simpl.
  - now apply Forall_skipn.
  - destruct (search s r from) as [[b e]|]; [|now apply Forall_skipn].
    apply Forall_app. split; [now apply Forall_substring|].
    apply Forall_app. split; [exact Hr|apply IH].
Qed.

End ReplaceFacts.

(* ================================================================= *)
(** ** The sentence splitter *)

Lemma nth_error_skipn_cons (s : jsstring) (i : nat) (c : ascii) :
  nth_error s i = Some c -> skipn i s = c :: skipn (S i) s.
Proof.
  revert i. induction s as [|x s IH]; intros [|i] H; simpl in *; try discriminate.
  - now injection H as ->.
  - now apply IH.
Qed.

Lemma reCRLF_matches_white (s : jsstring) (b e : nat) :
  execAt s reCRLF b = Some e -> stripWhiteSpace (substring s b e) = [].
Proof.
  intros H. apply execAt_Some in H. unfold reCRLF, Chr in H.
  inversion H as [ | | a0 b0 i j l H1 H2 | | | | | | | | ]; subst.
  inversion H1 as [ | p i c1 Hc1 Hp1 | | | | | | | | | ]; subst.
  inversion H2 as [ | p i c2 Hc2 Hp2 | | | | | | | | | ]; subst.
  apply Ascii.eqb_eq in Hp1, Hp2. subst c1 c2.
  unfold substring. replace (S (S b) - b) with 2 by lia.
  rewrite (nth_error_skipn_cons s b CR Hc1), (nth_error_skipn_cons s (S b) LF Hc2).
  reflexivity.
Qed.

Lemma stripWhiteSpace_normalize (input : jsstring) :
  stripWhiteSpace (replaceAll input reCRLF [LF]) = stripWhiteSpace input.
Proof.
  unfold replaceAll.
  rewrite replaceLoop_strip; [reflexivity| |reflexivity|lia].
  apply reCRLF_matches_white.
Qed.

Lemma stripWhiteSpace_pieces (l : list jsstring) :
  stripWhiteSpace (concat (filter truthy (map trim l))) = stripWhiteSpace (concat l).
Proof.
  induction l as [|x l IH]; simpl; [reflexivity|].
  rewrite stripWhiteSpace_app, <- IH, <- (stripWhiteSpace_trim x).
  destruct (trim x) as [|c u]; [reflexivity|].
  cbn [truthy filter concat]. now rewrite stripWhiteSpace_app.
Qed.

Lemma splitSentences_content (input : jsstring) :
  stripWhiteSpace (concat (splitSentences input)) = stripWhiteSpace input.
Proof.
  unfold splitSentences.
  rewrite stripWhiteSpace_pieces, split_concat.
  - apply stripWhiteSpace_normalize.
  - intros q e. apply execAt_LookBehind.
Qed.

(** Every sentence is trimmed and non-empty. *)
Lemma splitSentences_trimmed (input : jsstring) :
  Forall (fun s => trim s = s /\ s <> []) (splitSentences input).
Proof.
  unfold splitSentences. apply Forall_forall. intros x Hx.
  apply filter_In in Hx as [Hx Ht]. apply in_map_iff in Hx as (y & <- & _).
  split; [apply trim_idem|]. now destruct (trim y).
Qed.

Example splitSentences_example :
  splitSentences (str "Build  failed! Retry now. Why?" ++ [LF; LF] ++ str "Done")
  = map str ["Build  failed!"; "Retry now."; "Why?"; "Done"]%string.
Proof. vm_compute. reflexivity. Qed.

(** C5.  For every non-empty input within the 200,000 code unit guard, the
    sentences of the splitter, concatenated and with all white space
    deleted, are the input with all white space deleted: no other code unit
    is lost and none changes place. *)
Theorem C5_splitter_keeps_content (input : jsstring) :
  input <> [] -> (N.of_nat (length input) <= 200000)%N ->
  stripWhiteSpace (concat (splitSentences input)) = stripWhiteSpace input.
Proof. intros _ _. apply splitSentences_content. Qed.

Lemma C5_splitter_keeps_content_witness :
  stripWhiteSpace
    (concat (splitSentences (str "Build  failed! Retry now. Why?" ++ [LF; LF] ++ str "Done")))
  = stripWhiteSpace (str "Build  failed! Retry now. Why?" ++ [LF; LF] ++ str "Done").
Proof.
  apply (C5_splitter_keeps_content
           (str "Build  failed! Retry now. Why?" ++ [LF; LF] ++ str "Done")).
  - discriminate.
  - vm_compute. discriminate.
Defined.

(* ================================================================= *)
(** ** The classifier *)

Lemma classifyStep_push (acc : Deconstruction) (s : jsstring) :
  classifyStep acc s = push (classify s) (trim s) acc.
Proof.
  unfold classifyStep, classify.
  destruct (test s reNumeric || test s reFactWord); [reflexivity|].
  destruct (test (toLowerCase s) reClaimWord); [reflexivity|].
  destruct (test (trim s) reEndsQuestion || test s reInterrogative); reflexivity.
Qed.

(** The loop appends to each bucket the trimmed sentences of its class, in
    the order of the sequence. *)
Lemma extract_from (sentences : list jsstring) :
  forall acc,
    fold_left classifyStep sentences acc =
    {| facts := facts acc ++ map trim (ofClass Fact sentences);
       claims := claims acc ++ map trim (ofClass Claim sentences);
       questions := questions acc ++ map trim (ofClass Question sentences) |}.
Proof.
  induction sentences as [|s l IH]; intros acc; simpl.
  - rewrite !app_nil_r. now destruct acc.
  - rewrite IH, classifyStep_push. unfold ofClass.
    destruct (classify s); simpl; rewrite <- ?app_assoc; reflexivity.
Qed.

Lemma extractFactsAndClaims_buckets (sentences : list jsstring) :
  extractFactsAndClaims sentences =
  {| facts := map trim (ofClass Fact sentences);
     claims := map trim (ofClass Claim sentences);
     questions := map trim (ofClass Question sentences) |}.
Proof. unfold extractFactsAndClaims. now rewrite extract_from. Qed.

Lemma map_trim_trimmed (l : list jsstring) :
  Forall (fun s => trim s = s) l -> map trim l = l.
Proof.
  induction 1 as [|x l Hx _ IH]; simpl; [reflexivity|]. now rewrite Hx, IH.
Qed.

Lemma Forall_ofClass (P : jsstring -> Prop) (c : Classification) (l : list jsstring) :
  Forall P l -> Forall P (ofClass c l).
Proof.
  intros H. apply Forall_forall. intros x Hx. apply filter_In in Hx as [Hx _].
  now apply (proj1 (Forall_forall P l) H).
Qed.

Lemma ofClass_lengths (l : list jsstring) :
  length (ofClass Fact l) + length (ofClass Claim l) + length (ofClass Question l)
  = length l.
Proof.
  unfold ofClass. induction l as [|s l IH]; simpl; [reflexivity|].
  destruct (classify s); simpl; lia.
Qed.

(** C6.  For a sequence of sentences (trimmed strings, as the splitter
    produces them) the three buckets partition the sequence: every sentence
    has one class, each bucket is the subsequence of the sentences of its
    class in their original order, and the bucket sizes add up to the
    number of sentences. *)
Theorem C6_buckets_partition (sentences : list jsstring) :
  Forall (fun s => trim s = s) sentences ->
  let d := extractFactsAndClaims sentences in
  facts d = ofClass Fact sentences
  /\ claims d = ofClass Claim sentences
  /\ questions d = ofClass Question sentences
  /\ length (facts d) + length (claims d) + length (questions d) = length sentences
  /\ Permutation (facts d ++ claims d ++ questions d) sentences.
Proof.
  intros H d. subst d. rewrite extractFactsAndClaims_buckets. simpl.
  rewrite !map_trim_trimmed by now apply Forall_ofClass.
  repeat split; try reflexivity.
  - apply ofClass_lengths.
  - unfold ofClass. clear H. induction sentences as [|s l IH]; simpl; [constructor|].
    destruct (classify s); simpl.
    + now constructor.
    + apply Permutation_sym, Permutation_cons_app, Permutation_sym. exact IH.
    + apply Permutation_sym. rewrite app_assoc.
      apply Permutation_cons_app. rewrite <- app_assoc. now apply Permutation_sym.
Qed.

Lemma C6_buckets_partition_witness :
  facts (extractFactsAndClaims
           (map str ["Release 12 is out."; "We must test it."; "Is it safe?"; "Yes."]%string))
  = map str ["Release 12 is out."; "Yes."]%string
  /\ claims (extractFactsAndClaims
               (map str ["Release 12 is out."; "We must test it."; "Is it safe?"; "Yes."]%string))
     = map str ["We must test it."]%string
  /\ questions (extractFactsAndClaims
                  (map str ["Release 12 is out."; "We must test it."; "Is it safe?"; "Yes."]%string))
     = map str ["Is it safe?"]%string.
Proof.
  destruct (C6_buckets_partition
              (map str ["Release 12 is out."; "We must test it."; "Is it safe?"; "Yes."]%string))
    as (F & C & Q & _).
  - repeat constructor.
  - rewrite F, C, Q. vm_compute. auto.
Defined.

(* ================================================================= *)
(** ** Sorting *)

Section SortFacts.

Variable A : Type.
Variable cmp : A -> A -> Z.

Lemma insertSorted_perm (x : A) (l : list A) :
  Permutation (insertSorted cmp x l) (x :: l).
Proof.
  induction l as [|y l IH]; simpl; [reflexivity|].
  destruct (cmp x y <=? 0)%Z; [reflexivity|].
  rewrite IH. apply perm_swap.
Qed.

Lemma sortBy_perm (l : list A) : Permutation (sortBy cmp l) l.
Proof.
  induction l as [|x l IH]; simpl; [reflexivity|].
  rewrite insertSorted_perm. now constructor.
Qed.

Lemma sortBy_In (x : A) (l : list A) : In x (sortBy cmp l) <-> In x l.
Proof.
  split; apply Permutation_in; [|apply Permutation_sym]; apply sortBy_perm.
Qed.

(** Stability: elements that the comparator ranks alike keep their
    relative order; [p] selects such a group. *)
Lemma insertSorted_filter (p : A -> bool) (x : A) (l : list A) :
  (forall a b, p a = true -> p b = true -> (cmp a b <= 0)%Z) ->
  filter p (insertSorted cmp x l) = filter p (x :: l).
Proof.
  intros Hp. induction l as [|y l IH]; [reflexivity|].
  cbn [insertSorted]. destruct (cmp x y <=? 0)%Z eqn:E; [reflexivity|].
  apply Z.leb_gt in E. cbn [filter] in *. rewrite IH.
  destruct (p x) eqn:Px, (p y) eqn:Py; try reflexivity.
  specialize (Hp x y Px Py). lia.
Qed.

Lemma sortBy_stable (p : A -> bool) (l : list A) :
  (forall a b, p a = true -> p b = true -> (cmp a b <= 0)%Z) ->
  filter p (sortBy cmp l) = filter p l.
Proof.
  intros Hp. induction l as [|x l IH]; [reflexivity|].
  cbn [sortBy fold_right]. fold (sortBy cmp l).
  rewrite insertSorted_filter by exact Hp. cbn [filter]. now rewrite IH.
Qed.

Hypothesis cmp_total : forall x y, (0 < cmp x y)%Z -> (cmp y x <= 0)%Z.
Hypothesis cmp_trans :
  forall x y z, (cmp x y <= 0)%Z -> (cmp y z <= 0)%Z -> (cmp x z <= 0)%Z.

Lemma insertSorted_sorted (x : A) (l : list A) :
  StronglySorted (fun a b => (cmp a b <= 0)%Z) l ->
  StronglySorted (fun a b => (cmp a b <= 0)%Z) (insertSorted cmp x l).
Proof.
  induction 1 as [|y l Hs IH Hy]; simpl.
  - repeat constructor.
  - destruct (cmp x y <=? 0)%Z eqn:E.
    + apply Z.leb_le in E. constructor; [now constructor|].
      constructor; [exact E|].
      apply Forall_forall. intros z Hz.
      apply cmp_trans with y; [exact E|].
      now apply (proj1 (Forall_forall _ l) Hy).
    + apply Z.leb_gt in E. constructor; [exact IH|].
      apply Forall_forall. intros z Hz.
      apply (Permutation_in _ (insertSorted_perm x l)) in Hz as [<-|Hz].
      * now apply cmp_total.
      * now apply (proj1 (Forall_forall _ l) Hy).
Qed.

Lemma sortBy_sorted (l : list A) :
  StronglySorted (fun a b => (cmp a b <= 0)%Z) (sortBy cmp l).
Proof.
  induction l as [|x l IH]; simpl; [constructor|]. now apply insertSorted_sorted.
Qed.

End SortFacts.

(** ** The relation [Before] *)

Section BeforeFacts.

Variable A : Type.

Lemma Before_In (x y : A) (l : list A) : Before x y l -> In x l /\ In y l.
Proof.
  induction 1 as [l H|z l _ [IH1 IH2]]; simpl; auto.
Qed.

Lemma Before_nth (l : list A) :
  forall i j x y, i < j -> nth_error l i = Some x -> nth_error l j = Some y ->
                  Before x y l.
Proof.
  induction l as [|z l IH]; intros [|i] [|j] x y Hij Hi Hj; simpl in *;
    try discriminate; try lia.
  - injection Hi as ->. apply Before_here. now apply nth_error_In with j.
  - apply Before_later. apply IH with i j; [lia|exact Hi|exact Hj].
Qed.

Lemma Before_filter_inv (p : A -> bool) (x y : A) (l : list A) :
  Before x y (filter p l) -> Before x y l.
Proof.
  induction l as [|z l IH]; simpl; intros H; [inversion H|].
  destruct (p z).
  - inversion H as [l' Hy|z' l' Hb]; subst.
    + apply Before_here. now apply filter_In in Hy.
    + apply Before_later. now apply IH.
  - apply Before_later. now apply IH.
Qed.

Lemma Before_filter (p : A -> bool) (x y : A) (l : list A) :
  Before x y l -> p x = true -> p y = true -> Before x y (filter p l).
Proof.
  intros H Px Py. induction H as [l Hy|z l _ IH]; simpl.
  - rewrite Px. apply Before_here. now apply filter_In.
  - destruct (p z); [now apply Before_later|exact IH].
Qed.

Lemma Before_firstn (n : nat) (x y : A) (l : list A) :
  Before x y (firstn n l) -> Before x y l.
Proof.
  revert n. induction l as [|z l IH]; intros [|n] H; simpl in H; try now inversion H.
  inversion H as [l' Hy|z' l' Hb]; subst.
  - apply Before_here. rewrite <- (firstn_skipn n l). apply in_or_app. now left.
  - apply Before_later. now apply IH with n.
Qed.

Lemma Before_app (x y : A) (l1 l2 : list A) :
  Before x y (l1 ++ l2) ->
  Before x y l1 \/ (In x l1 /\ In y l2) \/ Before x y l2.
Proof.
  induction l1 as [|z l1 IH]; simpl; intros H; [now right; right|].
  inversion H as [l' Hy|z' l' Hb]; subst.
  - apply in_app_or in Hy as [Hy|Hy].
    + left. now apply Before_here.
    + right. left. split; [now left|exact Hy].
  - apply IH in Hb as [Hb|[[Hx Hy]|Hb]].
    + left. now apply Before_later.
    + right. left. split; [now right|exact Hy].
    + right. now right.
Qed.

Lemma Before_snoc (x y w : A) (l : list A) :
  Before x y (l ++ [w]) -> Before x y l \/ (In x l /\ y = w).
Proof.
  intros H. apply Before_app in H as [H|[[Hx Hy]|H]].
  - now left.
  - right. split; [exact Hx|]. destruct Hy as [<-|[]]. reflexivity.
  - inversion H as [l' Hy|z' l' Hb]; subst; [destruct Hy|inversion Hb].
Qed.

Lemma Before_sorted (R : A -> A -> Prop) (x y : A) (l : list A) :
  StronglySorted R l -> Before x y l -> R x y.
Proof.
  intros Hs H. induction H as [l Hy|z l _ IH].
  - apply StronglySorted_inv in Hs as [_ Hs].
    now apply (proj1 (Forall_forall _ l) Hs).
  - apply StronglySorted_inv in Hs as [Hs _]. now apply IH.
Qed.

Lemma Before_NoDup (x y : A) (l : list A) : NoDup l -> Before x y l -> x <> y.
Proof.
  intros Hn H. induction H as [l Hy|z l _ IH].
  - apply NoDup_cons_iff in Hn as [Hn _]. intros ->. contradiction.
  - apply NoDup_cons_iff in Hn as [_ Hn]. now apply IH.
Qed.

End BeforeFacts.

Lemma Before_map_inv (A B : Type) (f : A -> B) (u v : B) (l : list A) :
  Before u v (map f l) -> exists x y, Before x y l /\ f x = u /\ f y = v.
Proof.
  induction l as [|z l IH]; simpl; intros H; [inversion H|].
  inversion H as [l' Hy|z' l' Hb]; subst.
  - apply in_map_iff in Hy as (y & Hy & Hin).
    exists z, y. repeat split; [now apply Before_here|exact Hy].
  - apply IH in Hb as (x & y & Hb & Hx & Hy).
    exists x, y. repeat split; [now apply Before_later|exact Hx|exact Hy].
Qed.

Lemma Before_map (A B : Type) (f : A -> B) (x y : A) (l : list A) :
  Before x y l -> Before (f x) (f y) (map f l).
Proof.
  induction 1 as [l Hy|z l _ IH]; simpl.
  - apply Before_here. now apply in_map.
  - now apply Before_later.
Qed.

(* ================================================================= *)
(** ** Objects used as dictionaries *)

Lemma objSet_keys_old (V : Type) (o : jsobject V) (k : jsstring) (v : V) :
  In k (map fst o) -> map fst (objSet o k v) = map fst o.
Proof.
  induction o as [|[k' v'] o IH]; simpl; intros H; [contradiction|].
  destruct (str_eqb k' k) eqn:E; [reflexivity|]. simpl. f_equal.
  apply IH. destruct H as [H|H]; [|exact H].
  apply str_eqb_neq in E. contradiction.
Qed.

Lemma objSet_keys_new (V : Type) (o : jsobject V) (k : jsstring) (v : V) :
  ~ In k (map fst o) -> map fst (objSet o k v) = map fst o ++ [k].
Proof.
  induction o as [|[k' v'] o IH]; simpl; intros H; [reflexivity|].
  destruct (str_eqb k' k) eqn:E.
  - apply str_eqb_eq in E. exfalso. apply H. now left.
  - simpl. f_equal. apply IH. intros Hin. apply H. now right.
Qed.

Lemma parseDecimal_NtoDecimal (n : N) : parseDecimal (NtoDecimal n) = Some n.
Proof.
  unfold parseDecimal, NtoDecimal.
  destruct (list_ascii_of_string (NilEmpty.string_of_uint (N.to_uint n))) eqn:E.
  - apply (f_equal string_of_list_ascii) in E.
    rewrite string_of_list_ascii_of_string in E. simpl in E.
    pose proof (NilEmpty.usu (N.to_uint n)) as U. rewrite E in U. simpl in U.
    injection U as U. apply (f_equal N.of_uint) in U.
    rewrite DecimalN.Unsigned.of_to in U. simpl in U. subst n. discriminate E.
  - rewrite <- E, string_of_list_ascii_of_string, NilEmpty.usu. simpl.
    now rewrite DecimalN.Unsigned.of_to.
Qed.

(** The decimal numerals of the integers below 2^32 - 1 are the array
    index keys. *)
Lemma isArrayIndex_numeral (n : N) :
  isArrayIndex (NtoDecimal n) = (n <? 4294967295)%N.
Proof.
  unfold isArrayIndex. now rewrite parseDecimal_NtoDecimal, str_eqb_refl.
Qed.

Lemma isArrayIndex_canonical (k : jsstring) :
  isArrayIndex k = true -> NtoDecimal (indexValue k) = k.
Proof.
  unfold isArrayIndex, indexValue. destruct (parseDecimal k) as [n|]; [|discriminate].
  intros H. apply andb_true_iff in H as [H _]. now apply str_eqb_eq.
Qed.

(** Selecting properties of an object keeps its keys distinct. *)
Lemma filter_keys_NoDup (V : Type) (o : jsobject V) (keep : jsstring * V -> bool) :
  NoDup (map fst o) -> NoDup (map fst (filter keep o)).
Proof.
  intros H. induction o as [|e o IH]; [constructor|].
  cbn [map] in H. apply NoDup_cons_iff in H as [He H]. cbn [filter].
  destruct (keep e); [|now apply IH].
  cbn [map]. constructor; [|now apply IH].
  intros Hin. apply He. apply in_map_iff in Hin as (e' & Hk & Hin).
  apply in_map_iff. exists e'. split; [exact Hk|]. now apply filter_In in Hin.
Qed.

Lemma Object_entries_perm (V : Type) (o : jsobject V) :
  Permutation (Object_entries o) o.
Proof.
  unfold Object_entries. rewrite sortBy_perm.
  induction o as [|e o IH]; simpl; [constructor|].
  destruct (isArrayIndex (fst e)); simpl.
  - now constructor.
  - apply Permutation_sym, Permutation_cons_app, Permutation_sym. exact IH.
Qed.

(** The order of [Object.entries] on an object with distinct keys. *)
Lemma Object_entries_order (V : Type) (o : jsobject V) (e1 e2 : jsstring * V) :
  NoDup (map fst o) ->
  Before e1 e2 (Object_entries o) ->
  match isArrayIndex (fst e1), isArrayIndex (fst e2) with
  | true, true => (indexValue (fst e1) < indexValue (fst e2))%N
  | true, false => True
  | false, true => False
  | false, false => Before (fst e1) (fst e2) (map fst o)
  end.
Proof.
  intros Hnd H. unfold Object_entries in H.
  set (byIndex := fun a b : jsstring * V =>
         (Z.of_N (indexValue (fst a)) - Z.of_N (indexValue (fst b)))%Z) in H.
  set (isIdx := fun e : jsstring * V => isArrayIndex (fst e)) in H.
  apply Before_app in H as [H|[[H1 H2]|H]].
  - pose proof (Before_In _ _ _ _ H) as [H1 H2].
    apply sortBy_In, filter_In in H1 as [_ H1].
    apply sortBy_In, filter_In in H2 as [_ H2].
    unfold isIdx in H1, H2. rewrite H1, H2.
    assert (Hle : (byIndex e1 e2 <= 0)%Z).
    { apply (Before_sorted _ (fun a b => (byIndex a b <= 0)%Z) e1 e2
                           (sortBy byIndex (filter isIdx o))); [|exact H].
      apply sortBy_sorted; unfold byIndex; intros; lia. }
    assert (Hne : fst e1 <> fst e2).
    { apply (Before_NoDup _ _ _ (map fst (sortBy byIndex (filter isIdx o)))).
      - apply (Permutation_NoDup (l := map fst (filter isIdx o))).
        + apply Permutation_map, Permutation_sym, sortBy_perm.
        + now apply filter_keys_NoDup.
      - now apply Before_map. }
    unfold byIndex in Hle.
    destruct (N.eq_dec (indexValue (fst e1)) (indexValue (fst e2))) as [E|E]; [|lia].
    exfalso. apply Hne.
    rewrite <- (isArrayIndex_canonical _ H1), <- (isArrayIndex_canonical _ H2).
    now rewrite E.
  - apply sortBy_In, filter_In in H1 as [_ H1]. apply filter_In in H2 as [_ H2].
    unfold isIdx in H1. rewrite H1.
    apply negb_true_iff in H2. now rewrite H2.
  - pose proof (Before_In _ _ _ _ H) as [H1 H2].
    apply filter_In in H1 as [_ H1]. apply filter_In in H2 as [_ H2].
    apply negb_true_iff in H1, H2. rewrite H1, H2.
    apply Before_map. now apply Before_filter_inv in H.
Qed.

(* ================================================================= *)
(** ** The keyword scorer *)

Lemma indexOf_app_in (k : jsstring) (ws l : list jsstring) :
  In k ws -> indexOf k (ws ++ l) = indexOf k ws.
Proof.
  induction ws as [|x ws IH]; simpl; intros H; [contradiction|].
  destruct (str_eqb x k) eqn:E; [reflexivity|]. f_equal. apply IH.
  destruct H as [H|H]; [|exact H]. apply str_eqb_neq in E. contradiction.
Qed.

Lemma indexOf_app_notin (k : jsstring) (ws l : list jsstring) :
  ~ In k ws -> indexOf k (ws ++ l) = length ws + indexOf k l.
Proof.
  induction ws as [|x ws IH]; simpl; intros H; [reflexivity|].
  destruct (str_eqb x k) eqn:E.
  - apply str_eqb_eq in E. exfalso. apply H. now left.
  - f_equal. apply IH. intros Hin. apply H. now right.
Qed.

Lemma indexOf_lt (k : jsstring) (ws : list jsstring) :
  In k ws -> indexOf k ws < length ws.
Proof.
  induction ws as [|x ws IH]; simpl; intros H; [contradiction|].
  destruct (str_eqb x k) eqn:E; [lia|]. apply -> Nat.succ_lt_mono. apply IH.
  destruct H as [H|H]; [|exact H]. apply str_eqb_neq in E. contradiction.
Qed.

(** The keys of the frequency object: the counted words, each once, in the
    order of their first occurrence. *)
Lemma freq_keys (words : list jsstring) :
  let keys := map fst (fold_left countWord words []) in
  NoDup keys
  /\ (forall k, In k keys <-> In k words /\ counted k = true)
  /\ (forall x y, Before x y keys -> indexOf x words < indexOf y words).
Proof.
  induction words as [|w ws (Hnd & Hin & Hord)] using rev_ind; simpl.
  - repeat split; try constructor; try tauto. intros x y H. inversion H.
  - rewrite fold_left_app. simpl.
    set (o := fold_left countWord ws []) in *.
    assert (Hold : forall x y, Before x y (map fst o) ->
                               indexOf x (ws ++ [w]) < indexOf y (ws ++ [w])).
    { intros x y H. pose proof (Before_In _ _ _ _ H) as [Hx Hy].
      apply Hin in Hx as [Hx _]. apply Hin in Hy as [Hy _].
      rewrite !indexOf_app_in by assumption. now apply Hord. }
    unfold countWord. fold (counted w).
    destruct (STOPWORDS_has w || (length w <=? 2)) eqn:Ew.
    + split; [exact Hnd|]. split; [|exact Hold].
      intros k. rewrite Hin, in_app_iff. simpl. split; [tauto|].
      intros [[H|[<-|[]]] Hk]; [tauto|].
      unfold counted in Hk. rewrite Ew in Hk. discriminate.
    + assert (Hw : counted w = true) by (unfold counted; now rewrite Ew).
      destruct (in_dec (list_eq_dec ascii_dec) w (map fst o)) as [Hk|Hk].
      * rewrite objSet_keys_old by exact Hk.
        split; [exact Hnd|]. split; [|exact Hold].
        intros k. rewrite Hin, in_app_iff. simpl. split; [tauto|].
        intros [[H|[<-|[]]] Hc]; [tauto|]. now apply Hin.
      * rewrite objSet_keys_new by exact Hk.
        split; [|split].
        -- apply NoDup_app; [exact Hnd|repeat constructor; intros []|].
           intros k H1 [<-|[]]. contradiction.
        -- intros k. rewrite !in_app_iff, Hin. simpl. split.
           ++ intros [[H1 H2]|[<-|[]]]; tauto.
           ++ tauto.
        -- intros x y H. apply Before_snoc in H as [H|[Hx ->]]; [now apply Hold|].
           apply Hin in Hx as [Hx _].
           assert (~ In w ws) as Hnw by (intros H; apply Hk, Hin; tauto).
           rewrite indexOf_app_in by exact Hx.
           rewrite indexOf_app_notin by exact Hnw.
           apply indexOf_lt in Hx. lia.
Qed.

Lemma StronglySorted_firstn (A : Type) (R : A -> A -> Prop) (n : nat) (l : list A) :
  StronglySorted R l -> StronglySorted R (firstn n l).
Proof.
  intros H. revert n. induction H as [|x l Hs IH Hx]; intros [|n]; simpl;
    try constructor.
  - apply IH.
  - rewrite <- (firstn_skipn n l) in Hx. now apply Forall_app in Hx.
Qed.

Lemma StronglySorted_map (A B : Type) (f : A -> B) (R : B -> B -> Prop) (l : list A) :
  StronglySorted (fun a b => R (f a) (f b)) l -> StronglySorted R (map f l).
Proof.
  induction 1 as [|x l Hs IH Hx]; simpl; constructor; [exact IH|].
  apply Forall_map. exact Hx.
Qed.

Lemma sorted_entries_counted (words : list jsstring) (e : jsstring * nat) :
  In e (sortBy byCountDesc (Object_entries (fold_left countWord words []))) ->
  counted (fst e) = true.
Proof.
  intros H. apply sortBy_In in H.
  apply (Permutation_in _ (Object_entries_perm _ _)) in H.
  apply (in_map fst) in H.
  destruct (freq_keys words) as (_ & Hin & _). now apply Hin in H.
Qed.

(** C7.  The list of keywords has at most 12 entries, the counts never
    increase from one entry to a later one, and no keyword is a stopword or
    has two code units or fewer.  This holds for every list of words, so in
    particular for the tokens of every input. *)
Theorem C7_keywords_bounded_ranked_filtered (words : list jsstring) :
  let out := scoreKeywords words in
  length out <= 12
  /\ StronglySorted (fun a b => count b <= count a) out
  /\ Forall (fun k => STOPWORDS_has (keyword k) = false /\ 2 < length (keyword k)) out.
Proof.
  unfold scoreKeywords. cbv zeta.
  set (arr := sortBy byCountDesc (Object_entries (fold_left countWord words []))).
  split; [|split].
  - rewrite length_map. apply firstn_le_length.
  - apply StronglySorted_map. cbn [count]. apply StronglySorted_firstn.
    assert (Hs : StronglySorted (fun a b => (byCountDesc a b <= 0)%Z) arr)
      by (apply sortBy_sorted; unfold byCountDesc; intros; lia).
    clear -Hs. induction Hs as [|x l Hs IH Hx]; constructor; [exact IH|].
    apply Forall_forall. intros y Hy.
    pose proof (proj1 (Forall_forall _ l) Hx y Hy) as H.
    unfold byCountDesc in H. lia.
  - apply Forall_map, Forall_forall. intros e He. cbn [keyword].
    assert (Hin : In e arr).
    { rewrite <- (firstn_skipn 12 arr). apply in_or_app. now left. }
    apply sorted_entries_counted in Hin. unfold counted in Hin.
    apply negb_true_iff, orb_false_iff in Hin as [H1 H2].
    split; [exact H1|]. apply Nat.leb_gt in H2. exact H2.
Qed.

(** C3 as stated fails: in the ranking of the tokens of ["foo 404"], where
    both tokens have count 1, ["404"] comes before ["foo"] although ["foo"]
    is seen first. *)
Lemma C3_first_seen_order_fails :
  scoreKeywords (tokenizeWords (str "foo 404"))
  = [ {| keyword := str "404"; count := 1 |}; {| keyword := str "foo"; count := 1 |} ]
  /\ ~ tiesFollow (firstSeen (tokenizeWords (str "foo 404")))
                  (scoreKeywords (tokenizeWords (str "foo 404"))).
Proof.
  split; [vm_compute; reflexivity|].
  intros H.
  specialize (H 0 1 {| keyword := str "404"; count := 1 |}
                {| keyword := str "foo"; count := 1 |}).
  assert (X : firstSeen (tokenizeWords (str "foo 404")) (str "404") (str "foo")).
  { apply H; [lia| | |reflexivity]; vm_compute; reflexivity. }
  vm_compute in X. lia.
Qed.

(** C3, amended.  Among keywords of equal count the output keeps the order
    of [Object.entries]: tokens that are array indices (canonical decimal
    numerals below 2^32 - 1, such as ["404"]) come first, in ascending
    numeric order, and after them the other tokens in the order of their
    first occurrence among the words. *)
Theorem C3_ties_follow_entry_order (words : list jsstring) :
  tiesFollow (entryOrder words) (scoreKeywords words).
Proof.
  intros i j a b Hij Hi Hj Hc.
  pose proof (Before_nth _ _ i j a b Hij Hi Hj) as H.
  unfold scoreKeywords in H. cbv zeta in H.
  set (o := fold_left countWord words []) in H.
  apply Before_map_inv in H as (e1 & e2 & H & <- & <-).
  cbn [keyword count] in *.
  apply Before_firstn in H.
  set (same := fun e : jsstring * nat => snd e =? snd e1).
  apply (Before_filter _ same) in H;
    [|unfold same; apply Nat.eqb_refl|unfold same; apply Nat.eqb_eq; congruence].
  rewrite sortBy_stable in H.
  2:{ unfold same, byCountDesc. intros x y Hx Hy.
      apply Nat.eqb_eq in Hx, Hy. lia. }
  apply Before_filter_inv in H.
  destruct (freq_keys words) as (Hnd & _ & Hord). fold o in Hnd, Hord.
  apply Object_entries_order in H; [|exact Hnd].
  unfold entryOrder.
  destruct (isArrayIndex (fst e1)), (isArrayIndex (fst e2)); try exact H.
  now apply Hord.
Qed.

Lemma C3_ties_follow_entry_order_witness :
  entryOrder (tokenizeWords (str "foo 404 bar 7 123")) (str "123") (str "404")
  /\ entryOrder (tokenizeWords (str "foo 404 bar 7 123")) (str "404") (str "foo")
  /\ entryOrder (tokenizeWords (str "foo 404 bar 7 123")) (str "foo") (str "bar").
Proof.
  pose proof (C3_ties_follow_entry_order (tokenizeWords (str "foo 404 bar 7 123"))) as H.
  assert (E0 : nth_error (scoreKeywords (tokenizeWords (str "foo 404 bar 7 123"))) 0
               = Some {| keyword := str "123"; count := 1 |}) by (vm_compute; reflexivity).
  assert (E1 : nth_error (scoreKeywords (tokenizeWords (str "foo 404 bar 7 123"))) 1
               = Some {| keyword := str "404"; count := 1 |}) by (vm_compute; reflexivity).
  assert (E2 : nth_error (scoreKeywords (tokenizeWords (str "foo 404 bar 7 123"))) 2
               = Some {| keyword := str "foo"; count := 1 |}) by (vm_compute; reflexivity).
  assert (E3 : nth_error (scoreKeywords (tokenizeWords (str "foo 404 bar 7 123"))) 3
               = Some {| keyword := str "bar"; count := 1 |}) by (vm_compute; reflexivity).
  split; [|split].
  - exact (H 0 1 _ _ (Nat.lt_succ_diag_r 0) E0 E1 eq_refl).
  - exact (H 1 2 _ _ (Nat.lt_succ_diag_r 1) E1 E2 eq_refl).
  - exact (H 2 3 _ _ (Nat.lt_succ_diag_r 2) E2 E3 eq_refl).
Defined.

(* ================================================================= *)
(** ** The focal point selector *)

Lemma topKeywords_firstn (keywords : list Keyword) :
  topKeywords keywords = map keyword (firstn 6 keywords).
Proof.
  unfold topKeywords. f_equal.
  destruct (Nat.le_gt_cases 6 (length keywords)) as [H|H].
  - now rewrite Nat.min_l.
  - rewrite Nat.min_r by lia. rewrite !firstn_all2 by lia. reflexivity.
Qed.

Lemma mapiFrom_In (A B : Type) (f : A -> nat -> B) (l : list A) :
  forall i y, In y (mapiFrom f i l) -> exists x n, In x l /\ y = f x n.
Proof.
  induction l as [|x l IH]; simpl; intros i y H; [contradiction|].
  destruct H as [<-|H].
  - exists x, i. split; [now left|reflexivity].
  - apply IH in H as (x' & n & Hin & ->). exists x', n. split; [now right|reflexivity].
Qed.

(** Every entry of [matched] comes from a sentence: its matches are the
    top keywords that the lowercased sentence includes, in the order of
    the top keywords, and there is at least one. *)
Lemma matched_entries (topK : list jsstring) (sentences : list jsstring) :
  forall acc m,
    In m (fold_left (matchStep topK) sentences acc) ->
    In m acc \/
    exists s, In s sentences
              /\ Matched.sentence m = trim s
              /\ Matched.matches m = filter (fun k => includes (toLowerCase s) k) topK
              /\ Matched.matches m <> [].
Proof.
  induction sentences as [|s l IH]; simpl; intros acc m H; [now left|].
  apply IH in H as [H|(s' & Hin & H)].
  - unfold matchStep in H.
    destruct (filter (fun k => includes (toLowerCase s) k) topK) as [|k ks] eqn:E;
      simpl in H; [now left|].
    apply in_app_or in H as [H|[<-|[]]]; [now left|].
    right. exists s. simpl. rewrite E. repeat split; [now left|discriminate].
  - right. exists s'. split; [now right|exact H].
Qed.

(** C9.  The triggers of a sentence-kind focal point are the top-6 keyword
    list filtered to the keywords that the lowercased sentence includes: they
    come in the rank order of that list, whatever the positions at which
    they occur in the sentence. *)
Theorem C9_triggers_in_rank_order (sentences : list jsstring) (keywords : list Keyword)
        (fp : Focal.t) :
  In fp (focal (identifyFocalPoints sentences keywords)) ->
  exists s,
    In s sentences
    /\ Focal.summary fp = trim s
    /\ Focal.triggers fp
       = filter (fun k => includes (toLowerCase s) k) (map keyword (firstn 6 keywords)).
Proof.
  intros H. unfold identifyFocalPoints in H. cbn [focal] in H.
  apply mapiFrom_In in H as (m & n & Hm & ->). cbn [Focal.summary Focal.triggers].
  assert (Hin : In m (sortBy byMatchesThenLength
                        (fold_left (matchStep (topKeywords keywords)) sentences []))).
  { rewrite <- (firstn_skipn 5 (sortBy _ _)). apply in_or_app. now left. }
  apply sortBy_In, matched_entries in Hin as [[]|(s & Hs & H1 & H2 & _)].
  exists s. rewrite <- topKeywords_firstn. auto.
Qed.

Lemma C9_triggers_in_rank_order_witness :
  exists s,
    In s (map str ["Zebra eats apple."; "apple apple zebra mango."]%string)
    /\ str "Zebra eats apple." = trim s
    /\ map str ["apple"; "zebra"; "eats"]%string
       = filter (fun k => includes (toLowerCase s) k)
                (map keyword
                     (firstn 6 (scoreKeywords
                                  (tokenizeWords (str "Zebra eats apple. apple apple zebra mango."))))).
Proof.
  apply (C9_triggers_in_rank_order
           (map str ["Zebra eats apple."; "apple apple zebra mango."]%string)
           (scoreKeywords (tokenizeWords (str "Zebra eats apple. apple apple zebra mango.")))
           {| Focal.id := str "F2";
              Focal.summary := str "Zebra eats apple.";
              Focal.triggers := map str ["apple"; "zebra"; "eats"]%string |}).
  vm_compute. right. left. reflexivity.
Defined.

(* ================================================================= *)
(** ** The suggestion generator *)

Lemma actions_distinct :
  actInstrument <> actTriage /\ actInstrument <> actAutomate
  /\ actInstrument <> actSecurityAudit.
Proof.
  repeat split; apply str_eqb_neq; vm_compute; reflexivity.
Qed.

Lemma reArchitect_In (fps : FocalPoints) (p : Proposal.t) :
  In p (reArchitect fps) ->
  exists fp, In fp (focal fps) /\ p = propose fp.
Proof.
  unfold reArchitect. intros H. apply in_map_iff in H as (fp & <- & H).
  now exists fp.
Qed.

(** C4 as stated fails: on the input below the only focal sentence contains
    ["gh token"] and ["secret"], and also ["bug"]; the two actions of the
    issue group come first and [slice(0,3)] drops the instrumentation
    action. *)
Lemma C4_instrument_action_dropped :
  exists p,
    rearchitecture (pipeline [] (str "The bug leaks the gh token secret.")) = [p]
    /\ Proposal.problem p = str "The bug leaks the gh token secret."
    /\ includes (toLowerCase (Proposal.problem p)) (str "gh token") = true
    /\ includes (toLowerCase (Proposal.problem p)) (str "secret") = true
    /\ Proposal.proposals p = [actTriage; actAutomate; actSecurityAudit]
    /\ ~ In actInstrument (Proposal.proposals p).
Proof.
  eexists. split; [vm_compute; reflexivity|]. cbn [Proposal.problem Proposal.proposals].
  repeat split; try (vm_compute; reflexivity).
  intros [H|[H|[H|[]]]]; revert H; apply str_eqb_neq; vm_compute; reflexivity.
Qed.

(** C4, amended.  For a focal sentence that contains ["gh token"] and
    ["secret"], the proposal has at most 3 actions and the security-audit
    action is one of them; the instrumentation action is among them as
    well exactly when the sentence matches none of ["issue"], ["bug"],
    ["label"] (when it does, the two actions of that group come first and
    the truncation to 3 leaves room for the security-audit action only). *)
Theorem C4_security_actions (fps : FocalPoints) (p : Proposal.t) :
  In p (reArchitect fps) ->
  includes (toLowerCase (Proposal.problem p)) (str "gh token") = true ->
  includes (toLowerCase (Proposal.problem p)) (str "secret") = true ->
  length (Proposal.proposals p) <= 3
  /\ In actSecurityAudit (Proposal.proposals p)
  /\ (In actInstrument (Proposal.proposals p)
      <-> issueGroup (toLowerCase (Proposal.problem p)) = false).
Proof.
  intros H Hgh Hsec. apply reArchitect_In in H as (fp & _ & ->).
  cbn [propose Proposal.problem Proposal.proposals] in *.
  set (s := toLowerCase (Focal.summary fp)) in *.
  split; [apply firstn_le_length|].
  unfold collectActions, workflowGroup. rewrite Hgh, Hsec, !orb_true_r.
  destruct actions_distinct as (D1 & D2 & D3).
  destruct (issueGroup s), (emailGroup s);
    cbn [app firstn In length Nat.eqb];
    (split; [auto 6|]); split; try discriminate; intuition congruence.
Qed.

Lemma C4_security_actions_witness :
  length [actSecurityAudit; actInstrument] <= 3
  /\ In actSecurityAudit [actSecurityAudit; actInstrument]
  /\ (In actInstrument [actSecurityAudit; actInstrument]
      <-> issueGroup (toLowerCase (str "Rotate the gh token secret.")) = false).
Proof.
  apply (C4_security_actions
           (identifyFocalPoints
              (splitSentences (str "Rotate the gh token secret."))
              (scoreKeywords (tokenizeWords (str "Rotate the gh token secret."))))
           {| Proposal.id := str "F1";
              Proposal.problem := str "Rotate the gh token secret.";
              Proposal.proposals := [actSecurityAudit; actInstrument];
              Proposal.principles := map str ["Simple";"Efficient";"Pragmatic";"Safe"]%string |}).
  - vm_compute. left. reflexivity.
  - vm_compute. reflexivity.
  - vm_compute. reflexivity.
Defined.

(* ================================================================= *)
(** ** The guards of [main] *)

Lemma run_missing (h : Host) (input : option jsstring) :
  falsy input = true ->
  run h input =
  (Exited 2,
   [ConsoleError (str "No input provided. Use --file or pipe text into the script.")]).
Proof.
  intros H. unfold run, main. rewrite H. reflexivity.
Qed.

Lemma run_too_large (h : Host) (text : jsstring) :
  text <> [] -> (200000 <? N.of_nat (length text))%N = true ->
  run h (Some text) =
  (Exited 3, [ConsoleError (str "Input too large (>200k chars). Aborting.")]).
Proof.
  intros Hne H. unfold run, main.
  assert (falsy (Some text) = false) as -> by (destruct text; [contradiction|reflexivity]).
  cbv beta iota zeta delta [when bind ret emit process_exit app].
  rewrite H. reflexivity.
Qed.

Lemma run_accepted (h : Host) (text : jsstring) :
  text <> [] -> (200000 <? N.of_nat (length text))%N = false ->
  run h (Some text) =
  (Returned tt,
   (if outDirExists h then [] else [MkdirSync outDir])
   ++ [WriteFileSync outDir (resultFile h) (pipeline (isoNow h) text);
       ConsoleLog (pipeline (isoNow h) text);
       ConsoleError (str "Wrote " ++ outDir ++ str "/" ++ resultFile h)]).
Proof.
  intros Hne H. unfold run, main.
  assert (falsy (Some text) = false) as -> by (destruct text; [contradiction|reflexivity]).
  cbv beta iota zeta delta [when bind ret emit process_exit].
  rewrite H. fold (resultFile h). destruct (outDirExists h); reflexivity.
Qed.

Lemma falsy_iff (input : option jsstring) :
  falsy input = true <-> input = None \/ input = Some [].
Proof.
  destruct input as [[|c t]|]; simpl; split; auto; try discriminate.
  intros [H|H]; discriminate.
Qed.

(** C8.  A run leaves with code 2 exactly when no text was obtained ([null]
    or the empty string) and with code 3 exactly when the text has more
    than 200,000 code units.  In both cases the only effect of the run is
    the message on the error channel: the pipeline has not run, nothing is
    printed on standard output and no result file is written. *)
Theorem C8_input_guards (h : Host) (input : option jsstring) :
  (fst (run h input) = Exited 2 <-> input = None \/ input = Some [])
  /\ (fst (run h input) = Exited 3
      <-> exists text, input = Some text /\ (200000 < N.of_nat (length text))%N)
  /\ (forall c, fst (run h input) = Exited c ->
                (c = 2 \/ c = 3)
                /\ exists msg, snd (run h input) = [ConsoleError msg]).
Proof.
  destruct (falsy input) eqn:F.
  - rewrite (run_missing h input F). apply falsy_iff in F. cbn [fst snd].
    split; [tauto|]. split.
    + split; [discriminate|]. intros (text & -> & H).
      destruct F as [F|F]; [discriminate|]. injection F as ->. simpl in H. lia.
    + intros c H. injection H as <-. split; [now left|]. now eexists.
  - assert (exists text, input = Some text /\ text <> []) as (text & -> & Hne).
    { destruct input as [[|c t]|]; try discriminate. exists (c :: t).
      split; [reflexivity|discriminate]. }
    destruct (200000 <? N.of_nat (length text))%N eqn:L.
    + rewrite (run_too_large h text Hne L). cbn [fst snd].
      apply N.ltb_lt in L. split; [|split].
      * split; [discriminate|]. intros [H|H]; [discriminate|]. congruence.
      * split; [|reflexivity]. intros _. now exists text.
      * intros c H. injection H as <-. split; [now right|]. now eexists.
    + rewrite (run_accepted h text Hne L). cbn [fst snd].
      apply N.ltb_ge in L. split; [|split].
      * split; [discriminate|]. intros [H|H]; [discriminate|]. congruence.
      * split; [discriminate|]. intros (t & E & H). injection E as <-. lia.
      * intros c H. discriminate.
Qed.

Lemma C8_input_guards_witness :
  fst (run {| isoNow := []; msNow := 0; outDirExists := false |} (Some [])) = Exited 2
  /\ snd (run {| isoNow := []; msNow := 0; outDirExists := false |} (Some []))
     = [ConsoleError (str "No input provided. Use --file or pipe text into the script.")].
Proof.
  destruct (C8_input_guards {| isoNow := []; msNow := 0; outDirExists := false |} (Some []))
    as (H2 & _ & _).
  split; [apply H2; now right|reflexivity].
Defined.

(** A text of 200,001 code units is turned down with code 3; one of
    200,000 is not. *)
Example run_200001 (h : Host) (text : jsstring) :
  N.of_nat (length text) = 200001%N ->
  run h (Some text)
  = (Exited 3, [ConsoleError (str "Input too large (>200k chars). Aborting.")]).
Proof.
  intros H. apply run_too_large.
  - intros ->. discriminate H.
  - now rewrite H.
Qed.

Example run_200000 (h : Host) (text : jsstring) :
  N.of_nat (length text) = 200000%N ->
  fst (run h (Some text)) = Returned tt.
Proof.
  intros H. rewrite run_accepted; [reflexivity| |now rewrite H].
  intros ->. discriminate H.
Qed.

(* ================================================================= *)
(** ** Input made of white space only *)

Lemma toLowerChar_white (c : ascii) : isWhiteSpace c = true -> toLowerChar c = c.
Proof.
  destruct c as [[] [] [] [] [] [] [] []]; intros H; try discriminate H; reflexivity.
Qed.

Lemma toLowerCase_white (s : jsstring) : allWhiteSpace s -> toLowerCase s = s.
Proof.
  induction 1 as [|c s Hc _ IH]; simpl; [reflexivity|].
  now rewrite (toLowerChar_white c Hc), IH.
Qed.

Lemma execAt_Class_none (s : jsstring) (p : ascii -> bool) (i : nat) :
  Forall (fun c => p c = false) s -> execAt s (Class p) i = None.
Proof.
  intros F. unfold execAt. cbn [rmatch].
  destruct (nth_error s i) as [c|] eqn:E; [|reflexivity].
  apply nth_error_In in E. now rewrite (proj1 (Forall_forall _ s) F c E).
Qed.

Lemma tokenizeWords_white (input : jsstring) :
  input <> [] -> allWhiteSpace input -> tokenizeWords input = [].
Proof.
  intros Hne F. unfold tokenizeWords.
  rewrite (toLowerCase_white input F).
  rewrite (replaceAll_no_match input reCurlyQuote).
  2:{ intros i. apply execAt_Class_none. apply Forall_forall. intros c _.
      destruct c as [[] [] [] [] [] [] [] []]; reflexivity. }
  rewrite (replaceAll_no_match input reNotToken).
  2:{ intros i. apply execAt_Class_none.
      apply (Forall_impl _ (P := fun c => isWhiteSpace c = true)); [|exact F].
      intros c Hc. rewrite Hc. now rewrite !orb_true_r. }
  unfold reSpaces. now rewrite (split_Plus_all input isWhiteSpace Hne F).
Qed.

Lemma splitSentences_white (input : jsstring) :
  allWhiteSpace input -> splitSentences input = [].
Proof.
  intros F. unfold splitSentences.
  set (text := replaceAll input reCRLF [LF]).
  assert (Ft : allWhiteSpace text).
  { apply replaceLoop_Forall; [exact F|]. now repeat constructor. }
  assert (Fp : Forall allWhiteSpace (split text reSentenceEnd)).
  { apply Forall_concat. rewrite split_concat; [exact Ft|].
    intros q e. apply execAt_LookBehind. }
  induction Fp as [|x l Hx _ IH]; simpl; [reflexivity|].
  now rewrite (trim_all_white x Hx).
Qed.

Lemma pipeline_white (now input : jsstring) :
  input <> [] -> allWhiteSpace input ->
  pipeline now input = emptyReport now (length input).
Proof.
  intros Hne F. unfold pipeline.
  rewrite (splitSentences_white input F), (tokenizeWords_white input Hne F).
  reflexivity.
Qed.

(** C10.  A non-empty input made of white space only, of at most 200,000
    code units, is not rejected: the run returns normally, and the report
    it writes to the result file and prints has empty facts, claims and
    questions, no keyword, no focal point of either kind and no proposal,
    with [sourceSize] the length of the input. *)
Theorem C10_white_space_input_runs (h : Host) (input : jsstring) :
  input <> [] -> allWhiteSpace input -> (N.of_nat (length input) <= 200000)%N ->
  let report := emptyReport (isoNow h) (length input) in
  pipeline (isoNow h) input = report
  /\ fst (run h (Some input)) = Returned tt
  /\ In (WriteFileSync outDir (resultFile h) report) (snd (run h (Some input)))
  /\ In (ConsoleLog report) (snd (run h (Some input))).
Proof.
  intros Hne F L report.
  assert (E : (200000 <? N.of_nat (length input))%N = false) by now apply N.ltb_ge.
  rewrite (run_accepted h input Hne E), (pipeline_white (isoNow h) input Hne F).
  fold report. cbn [fst snd]. repeat split; try reflexivity.
  - apply in_or_app. right. now left.
  - apply in_or_app. right. right. now left.
Qed.

Lemma C10_white_space_input_runs_witness :
  pipeline (str "2026-01-01T00:00:00.000Z") [" "%char; LF; " "%char]
  = emptyReport (str "2026-01-01T00:00:00.000Z") 3
  /\ fst (run {| isoNow := str "2026-01-01T00:00:00.000Z"; msNow := 1767225600000;
                 outDirExists := true |}
              (Some [" "%char; LF; " "%char])) = Returned tt
  /\ In (WriteFileSync outDir (str "dr_result_1767225600000.json")
                       (emptyReport (str "2026-01-01T00:00:00.000Z") 3))
        (snd (run {| isoNow := str "2026-01-01T00:00:00.000Z"; msNow := 1767225600000;
                     outDirExists := true |}
                  (Some [" "%char; LF; " "%char])))
  /\ In (ConsoleLog (emptyReport (str "2026-01-01T00:00:00.000Z") 3))
        (snd (run {| isoNow := str "2026-01-01T00:00:00.000Z"; msNow := 1767225600000;
                     outDirExists := true |}
                  (Some [" "%char; LF; " "%char]))).
Proof.
  apply (C10_white_space_input_runs
           {| isoNow := str "2026-01-01T00:00:00.000Z"; msNow := 1767225600000;
              outDirExists := true |}
           [" "%char; LF; " "%char]).
  - discriminate.
  - repeat constructor.
  - vm_compute. discriminate.
Defined.

(* ================================================================= *)
(** ** The claim rule and the question rule *)

Lemma skipn_cons_nth (s : jsstring) :
  forall i c rest, skipn i s = c :: rest ->
                   nth_error s i = Some c /\ rest = skipn (S i) s.
Proof.
  induction s as [|x s IH]; intros [|i] c rest H; simpl in *; try discriminate.
  - injection H as -> ->. now split.
  - now apply IH.
Qed.

Lemma Matches_LitI (s : jsstring) (w : jsstring) :
  forall i j, Matches s (LitI w) i j
              <-> j = i + length w /\ startsWithI w (skipn i s) = true.
Proof.
  induction w as [|c w IH]; intros i j; simpl.
  - split.
    + intros H. inversion H; subst. split; [lia|reflexivity].
    + intros [-> _]. rewrite Nat.add_0_r. constructor.
  - split.
    + intros H. inversion H as [ | | a b i' m j' H1 H2 | | | | | | | | ]; subst.
      inversion H1 as [ | p i' x Hx Hp | | | | | | | | | ]; subst.
      apply IH in H2 as [-> H2].
      rewrite (nth_error_skipn_cons s i x Hx). cbv iota. rewrite Hp, H2.
      split; [lia|reflexivity].
    + intros [-> H]. destruct (skipn i s) as [|x rest] eqn:E; [discriminate|].
      apply andb_true_iff in H as [Hp H].
      apply skipn_cons_nth in E as [Hx ->].
      apply MSeq with (S i); [now apply MClass with x|].
      apply IH. split; [lia|exact H].
Qed.

Lemma Matches_AltOf (s : jsstring) (rs : list regex) :
  forall r i j, Matches s (AltOf r rs) i j
                <-> exists r', In r' (r :: rs) /\ Matches s r' i j.
Proof.
  induction rs as [|r1 rs IH]; intros r i j; cbn [AltOf].
  - split.
    + intros H. exists r. split; [now left|exact H].
    + intros (r' & [<-|[]] & H). exact H.
  - split.
    + intros H. inversion H as [ | | | a b i' j' H1 | a b i' j' H1 | | | | | | ]; subst.
      * exists r. split; [now left|exact H1].
      * apply IH in H1 as (r' & Hin & H1). exists r'. split; [now right|exact H1].
    + intros (r' & [<-|Hin] & H).
      * now apply MAltL.
      * apply MAltR, IH. now exists r'.
Qed.

(** A pattern of the form [\b(w1|...|wn)\b] with the [i] flag. *)
Lemma Matches_word_alternatives (s : jsstring) (w0 : jsstring) (ws : list jsstring)
      (i j : nat) :
  Matches s (Seq WordB (Seq (AltOf (LitI w0) (map LitI ws)) WordB)) i j
  <-> exists w, In w (w0 :: ws)
                /\ j = i + length w
                /\ startsWithI w (skipn i s) = true
                /\ wordBoundary s i = true /\ wordBoundary s j = true.
Proof.
  split.
  - intros H. inversion H as [ | | a b i' m j' H1 H2 | | | | | | | | ]; subst.
    inversion H1 as [ | | | | | | | | | i' Hb1 | ]; subst.
    inversion H2 as [ | | a b i' m' j' H3 H4 | | | | | | | | ]; subst.
    inversion H4 as [ | | | | | | | | | i' Hb2 | ]; subst.
    apply Matches_AltOf in H3 as (r' & Hin & H3).
    change (In r' (map LitI (w0 :: ws))) in Hin.
    apply in_map_iff in Hin as (w & <- & Hin).
    apply Matches_LitI in H3 as [-> H3].
    exists w. auto.
  - intros (w & Hin & -> & Hw & Hb1 & Hb2).
    apply MSeq with i; [now constructor|].
    apply MSeq with (i + length w); [|now constructor].
    apply Matches_AltOf. exists (LitI w). split.
    + change (In (LitI w) (map LitI (w0 :: ws))). now apply in_map.
    + apply Matches_LitI. auto.
Qed.

Lemma isUpperAZ_toLowerChar (c : ascii) : isUpperAZ (toLowerChar c) = false.
Proof. destruct c as [[] [] [] [] [] [] [] []]; reflexivity. Qed.

Lemma toLowerCase_no_upper (s : jsstring) :
  Forall (fun c => isUpperAZ c = false) (toLowerCase s).
Proof.
  unfold toLowerCase. apply Forall_map, Forall_forall. intros c _.
  apply isUpperAZ_toLowerChar.
Qed.

Lemma upper_of_lower (x : ascii) :
  isLowerAZ x = true -> isUpperAZ (ascii_of_nat (code x - 32)) = true.
Proof.
  destruct x as [[] [] [] [] [] [] [] []]; intros H; try discriminate H; reflexivity.
Qed.

(** Without capitals on either side the [i] flag changes nothing. *)
Lemma ciEq_lower (x y : ascii) :
  isUpperAZ x = false -> isUpperAZ y = false -> ciEq x y = Ascii.eqb x y.
Proof.
  intros Hx Hy. unfold ciEq. rewrite Hx, andb_false_l, orb_false_r.
  destruct (isLowerAZ x) eqn:Lx; [|now rewrite andb_false_l, orb_false_r].
  destruct (Ascii.eqb (ascii_of_nat (code x - 32)) y) eqn:E;
    [|now rewrite andb_false_r, orb_false_r].
  apply Ascii.eqb_eq in E. subst y. rewrite (upper_of_lower x Lx) in Hy. discriminate.
Qed.

Lemma startsWithI_lower (w : jsstring) :
  Forall (fun c => isUpperAZ c = false) w ->
  forall t, Forall (fun c => isUpperAZ c = false) t ->
            startsWithI w t = startsWith w t.
Proof.
  induction 1 as [|x w Hx _ IH]; intros t Ht; simpl; [reflexivity|].
  destruct Ht as [|y t Hy Ht]; [reflexivity|].
  now rewrite (ciEq_lower x y Hx Hy), IH.
Qed.

Lemma startsWith_nonempty (w t : jsstring) :
  w <> [] -> startsWith w t = true -> t <> [].
Proof.
  destruct w; [contradiction|]. destruct t; [discriminate|discriminate].
Qed.

Lemma claimWords_lower :
  Forall (fun w => w <> [] /\ Forall (fun c => isUpperAZ c = false) w) claimWords.
Proof.
  repeat constructor; discriminate.
Qed.

(** The second [if] of the classifier is taken exactly when the lowercased
    sentence has one of the seven triggers as a whole word. *)
Lemma claimRule_whole_word (s : jsstring) :
  claimRule s = true
  <-> exists w i, In w claimWords /\ wholeWordAt w (toLowerCase s) i.
Proof.
  unfold claimRule. set (low := toLowerCase s).
  assert (Hlow : forall i, Forall (fun c => isUpperAZ c = false) (skipn i low))
    by (intros i; apply Forall_skipn, toLowerCase_no_upper).
  rewrite test_true. unfold reClaimWord.
  change (map (fun w => LitI (str w))
              ["must";"need to";"we should";"recommend";"suggest";"propose"]%string)
    with (map LitI (map str ["must";"need to";"we should";"recommend";"suggest";"propose"]%string)).
  split.
  - intros (i & j & _ & H).
    apply Matches_word_alternatives in H as (w & Hin & -> & Hw & Hb1 & Hb2).
    change (In w claimWords) in Hin.
    pose proof (proj1 (Forall_forall _ claimWords) claimWords_lower w Hin) as [_ Hl].
    exists w, i. split; [exact Hin|]. unfold wholeWordAt, occursAt.
    rewrite <- (startsWithI_lower w Hl _ (Hlow i)). auto.
  - intros (w & i & Hin & Hw & Hb1 & Hb2).
    pose proof (proj1 (Forall_forall _ claimWords) claimWords_lower w Hin) as [Hne Hl].
    unfold occursAt in Hw.
    exists i, (i + length w). split.
    + apply (startsWith_nonempty w _ Hne) in Hw.
      destruct (Nat.le_gt_cases i (length low)) as [H|H]; [exact H|].
      exfalso. apply Hw. apply skipn_all2. lia.
    + apply Matches_word_alternatives. exists w. split; [exact Hin|].
      rewrite (startsWithI_lower w Hl _ (Hlow i)). auto.
Qed.

Lemma classify_Claim (s : jsstring) :
  factRule s = false -> (classify s = Claim <-> claimRule s = true).
Proof.
  unfold classify, factRule, claimRule. intros ->.
  destruct (test (toLowerCase s) reClaimWord).
  - split; reflexivity.
  - destruct (test (trim s) reEndsQuestion || test s reInterrogative);
      split; discriminate.
Qed.

(** C2 as stated fails: the sentence below does not match the Fact rule and
    its lowercased text contains ["should"], yet it is classified Fact: in
    ["shouldn't"] the trigger is followed by a letter, so there is no word
    boundary after it. *)
Lemma C2_substring_is_not_enough :
  factRule (str "You shouldn't go.") = false
  /\ In (str "should") claimWords
  /\ includes (toLowerCase (str "You shouldn't go.")) (str "should") = true
  /\ classify (str "You shouldn't go.") = Fact
  /\ classify (str "You shouldn't go.") <> Claim.
Proof.
  repeat split; try (vm_compute; reflexivity).
  - now left.
  - vm_compute. discriminate.
Qed.

(** C2, amended.  For every sentence that does not match the Fact rule, the
    classifier assigns Claim exactly when the lowercased sentence contains
    one of the seven triggers as a whole word or phrase: an occurrence with
    a word boundary at both of its ends.  An occurrence inside a longer
    word does not count. *)
Theorem C2_claim_needs_whole_word (s : jsstring) :
  factRule s = false ->
  (classify s = Claim
   <-> exists w i, In w claimWords /\ wholeWordAt w (toLowerCase s) i).
Proof.
  intros H. rewrite (classify_Claim s H). apply claimRule_whole_word.
Qed.

Lemma C2_claim_needs_whole_word_witness :
  classify (str "You should not go.") = Claim
  <-> exists w i, In w claimWords
                  /\ wholeWordAt w (toLowerCase (str "You should not go.")) i.
Proof.
  apply (C2_claim_needs_whole_word (str "You should not go.")).
  vm_compute. reflexivity.
Defined.

Lemma classify_Question (s : jsstring) :
  factRule s = false -> claimRule s = false ->
  (classify s = Question
   <-> test (trim s) reEndsQuestion || test s reInterrogative = true).
Proof.
  unfold classify, factRule, claimRule. intros -> ->.
  destruct (test (trim s) reEndsQuestion || test s reInterrogative);
    split; try reflexivity; discriminate.
Qed.

(** The start anchor of the interrogative pattern belongs to ["who"] alone:
    ["what"], ["why"] or ["how"] followed by white space matches at any
    index of the sentence. *)
Lemma interrogative_anywhere (s w : jsstring) (i : nat) (c : ascii) :
  In w (map str ["what"; "why"; "how"]%string) ->
  startsWithI w (skipn i s) = true ->
  nth_error s (i + length w) = Some c -> isWhiteSpace c = true ->
  test s reInterrogative = true.
Proof.
  intros Hw Hs Hc Hws. apply test_true.
  exists i, (S (i + length w)). split.
  - apply nth_error_lt in Hc. lia.
  - assert (HM : Matches s (Seq (LitI w) (Class isWhiteSpace)) i (S (i + length w))).
    { apply MSeq with (i + length w); [|now apply MClass with c].
      apply Matches_LitI. now split. }
    unfold reInterrogative. apply MAltR.
    destruct Hw as [<-|[<-|[<-|[]]]].
    + now apply MAltL.
    + now apply MAltR, MAltL.
    + now apply MAltR, MAltR.
Qed.

(** C1: the code departs from the claim.  The sentence below matches
    neither the Fact rule nor the Claim rule, does not end with a question
    mark and does not start with an interrogative, but ["what "] occurs
    inside it and the classifier puts it among the questions. *)
Theorem C1_interior_interrogative_is_question :
  factRule (str "I know what you did.") = false
  /\ claimRule (str "I know what you did.") = false
  /\ endsWithQuestionMark (str "I know what you did.") = false
  /\ startsWithInterrogative (str "I know what you did.") = false
  /\ classify (str "I know what you did.") = Question
  /\ questions (extractFactsAndClaims [str "I know what you did."])
     = [str "I know what you did."].
Proof.
  repeat split; vm_compute; reflexivity.
Qed.

(* ================================================================= *)
(** * Further properties of the script *)

(** ** [replace] with a one-unit class and [split] on a repeated class *)

Lemma Forall_substring_at (P : ascii -> Prop) (s : jsstring) (p q : nat) :
  (forall i c, p <= i < q -> nth_error s i = Some c -> P c) ->
  Forall P (substring s p q).
Proof.
  intros H. unfold substring. apply Forall_forall. intros c Hc.
  apply In_nth_error in Hc as [k Hk].
  rewrite nth_error_firstn in Hk.
  destruct (k <? q - p) eqn:Hlt; [|discriminate].
  apply Nat.ltb_lt in Hlt. rewrite nth_error_skipn in Hk.
  apply (H (p + k) c); [lia|exact Hk].
Qed.

Lemma map_unchanged (g : ascii -> ascii) (p : ascii -> bool) (l : jsstring) :
  (forall x, p x = false -> g x = x) ->
  Forall (fun x => p x = false) l -> map g l = l.
Proof.
  intros Hg. induction 1 as [|x l Hx _ IH]; simpl; [reflexivity|].
  now rewrite (Hg x Hx), IH.
Qed.

Lemma execAt_Class (s : jsstring) (p : ascii -> bool) (i : nat) :
  execAt s (Class p) i =
  match nth_error s i with
  | Some c => if p c then Some (S i) else None
  | None => None
  end.
Proof. reflexivity. Qed.

Lemma search_Some_first (s : jsstring) (r : regex) (from b e : nat) :
  search s r from = Some (b, e) ->
  forall i, from <= i < b -> execAt s r i = None.
Proof.
  unfold search. destruct (from <=? length s); [|discriminate].
  intros H. now apply searchFrom_Some in H.
Qed.

Lemma search_None_all (s : jsstring) (r : regex) (from : nat) :
  from <= length s -> search s r from = None ->
  forall i, from <= i <= length s -> execAt s r i = None.
Proof.
  intros Hle H i Hi. unfold search in H.
  assert ((from <=? length s) = true) as E by now apply Nat.leb_le.
  rewrite E in H. apply (proj1 (searchFrom_None s r (length s - from) from) H). lia.
Qed.

(** Replacing every code unit of a class by one code unit is a [map]. *)
Lemma replaceLoop_Class (s : jsstring) (p : ascii -> bool) (c : ascii) :
  forall fuel from,
    from <= length s -> length s - from < fuel ->
    replaceLoop s (Class p) [c] fuel from from
    = map (fun x => if p x then c else x) (skipn from s).
Proof.
  set (g := fun x => if p x then c else x).
  assert (Hg : forall x, p x = false -> g x = x) by (intros x Hx; unfold g; now rewrite Hx).
  induction fuel as [|f IH]; intros from Hle Hf; [lia|]. simpl.
  destruct (search s (Class p) from) as [[b e]|] eqn:E.
  - pose proof (search_Some_first s (Class p) from b e E) as Hfirst.
    pose proof (search_Some_bound s (Class p) from b e E) as Hb.
    apply search_Some in E as (Hfrom & _ & Hx).
    rewrite execAt_Class in Hx.
    destruct (nth_error s b) as [x|] eqn:Ex; [|discriminate].
    destruct (p x) eqn:Px; [|discriminate]. injection Hx as <-.
    assert ((S b =? b) = false) as -> by (apply Nat.eqb_neq; lia).
    apply nth_error_lt in Ex as Hlt.
    rewrite IH by lia.
    rewrite <- (substring_skipn s from b) by lia.
    rewrite (nth_error_skipn_cons s b x Ex), map_app. cbn [map app].
    assert (g x = c) as -> by (unfold g; now rewrite Px). f_equal.
    symmetry. apply (map_unchanged g p); [exact Hg|].
    apply Forall_substring_at. intros i y Hi Hy.
    specialize (Hfirst i Hi). rewrite execAt_Class, Hy in Hfirst.
    now destruct (p y).
  - symmetry. apply (map_unchanged g p); [exact Hg|].
    rewrite <- (substring_to_end s from).
    apply Forall_substring_at. intros i y Hi Hy.
    pose proof (search_None_all s (Class p) from Hle E i) as Hn.
    rewrite execAt_Class, Hy in Hn. destruct (p y); [|reflexivity].
    discriminate Hn. lia.
Qed.

Lemma replaceAll_Class (s : jsstring) (p : ascii -> bool) (c : ascii) :
  replaceAll s (Class p) [c] = map (fun x => if p x then c else x) s.
Proof.
  unfold replaceAll. rewrite replaceLoop_Class by lia. reflexivity.
Qed.

Lemma starLoop_Some (ma : nat -> (nat -> option nat) -> option nat) (fuel i : nat) :
  starLoop ma Some fuel i <> None.
Proof.
  destruct fuel as [|f]; simpl; [discriminate|].
  destruct (ma i _); discriminate.
Qed.

(** [p+] matches at [i] exactly when the code unit at [i] is in [p], and
    then it consumes at least that unit. *)
Lemma execAt_Plus_Class (s : jsstring) (p : ascii -> bool) (i : nat) :
  match execAt s (Plus (Class p)) i with
  | Some e => i < e
  | None => forall c, nth_error s i = Some c -> p c = false
  end.
Proof.
  destruct (execAt s (Plus (Class p)) i) as [e|] eqn:E.
  - apply execAt_Some in E. unfold Plus in E.
    inversion E as [ | | a b i' j l H1 H2 | | | | | | | | ]; subst.
    inversion H1; subst. apply Matches_range in H2. lia.
  - intros c Hc. unfold execAt, Plus in E. cbn [rmatch] in E. rewrite Hc in E.
    destruct (p c); [|reflexivity].
    exfalso. revert E. apply starLoop_Some.
Qed.

(** No piece of a split on [p+] contains a code unit of [p]. *)
Lemma splitLoop_Plus_pieces (s : jsstring) (p : ascii -> bool) :
  forall fuel p0 q acc,
    p0 <= q -> splitMeasure s p0 q < fuel ->
    Forall (Forall (fun c => p c = false)) acc ->
    (forall i c, p0 <= i < q -> nth_error s i = Some c -> p c = false) ->
    Forall (Forall (fun c => p c = false)) (splitLoop s (Plus (Class p)) fuel p0 q acc).
Proof.
  unfold splitMeasure.
  induction fuel as [|f IH]; intros p0 q acc Hpq Hf Hacc Hgap; [lia|]. simpl.
  assert (Hend : q >= length s ->
                 Forall (Forall (fun c => p c = false)) (acc ++ [substring s p0 (length s)])).
  { intros Hq. apply Forall_app. split; [exact Hacc|]. constructor; [|constructor].
    apply Forall_substring_at. intros i c Hi Hc. apply (Hgap i c); [lia|exact Hc]. }
  destruct (q <? length s) eqn:Hq; [|apply Hend; apply Nat.ltb_ge in Hq; lia].
  apply Nat.ltb_lt in Hq.
  pose proof (execAt_Plus_Class s p q) as Hexec.
  destruct (execAt s (Plus (Class p)) q) as [e0|].
  - assert ((Nat.min e0 (length s) =? p0) = false) as -> by (apply Nat.eqb_neq; lia).
    apply IH; [lia|rewrite Nat.ltb_irrefl; destruct (p0 <? q); lia| |intros; lia].
    apply Forall_app. split; [exact Hacc|]. constructor; [|constructor].
    apply Forall_substring_at. exact Hgap.
  - apply IH; [lia|destruct (p0 <? q), (p0 <? S q); lia|exact Hacc|].
    intros i c Hi Hc. destruct (Nat.eq_dec i q) as [->|Hne].
    + now apply Hexec.
    + apply (Hgap i c); [lia|exact Hc].
Qed.

Lemma split_Plus_pieces (s : jsstring) (p : ascii -> bool) :
  Forall (Forall (fun c => p c = false)) (split s (Plus (Class p))).
Proof.
  unfold split. destruct s as [|c t] eqn:E.
  - destruct (execAt [] (Plus (Class p)) 0); repeat constructor.
  - rewrite <- E. apply splitLoop_Plus_pieces; try constructor.
    + unfold splitMeasure. simpl. lia.
    + intros; lia.
Qed.

(* ================================================================= *)
(** ** The tokenizer *)

Lemma reCurlyQuote_never (c : ascii) :
  existsb (N.eqb (N_of_ascii c)) [8216; 8217; 8220; 8221]%N = false.
Proof. destruct c as [[] [] [] [] [] [] [] []]; reflexivity. Qed.

(** The text that [tokenizeWords] splits: the lowercased input with every
    code unit outside [a-z0-9'-] and white space turned into a blank. *)
Lemma tokenizeWords_split (text : jsstring) :
  tokenizeWords text
  = filter truthy
      (split (map (fun x => if negb (tokenChar x || isWhiteSpace x) then " "%char else x)
                  (toLowerCase text))
             reSpaces).
Proof.
  unfold tokenizeWords.
  rewrite (replaceAll_no_match (toLowerCase text) reCurlyQuote).
  2:{ intros i. apply execAt_Class_none. apply Forall_forall. intros c _.
      apply reCurlyQuote_never. }
  change (str " ") with [" "%char]. unfold reNotToken. rewrite replaceAll_Class.
  do 2 f_equal. apply map_ext. intros x. unfold tokenChar.
  destruct (isLowerAZ x), (isDigit x), (Ascii.eqb x "'"), (isWhiteSpace x),
    (Ascii.eqb x "-"); reflexivity.
Qed.

Lemma splitLoop_Forall (P : ascii -> Prop) (s : jsstring) (r : regex) :
  Forall P s ->
  forall fuel p q acc,
    Forall (Forall P) acc -> Forall (Forall P) (splitLoop s r fuel p q acc).
Proof.
  intros Hs. induction fuel as [|f IH]; intros p q acc Hacc; simpl.
  - apply Forall_app. split; [exact Hacc|]. repeat constructor.
    now apply Forall_substring.
  - destruct (q <? length s).
    + destruct (execAt s r q) as [e0|]; [|now apply IH].
      destruct (Nat.min e0 (length s) =? p); [now apply IH|].
      apply IH. apply Forall_app. split; [exact Hacc|]. repeat constructor.
      now apply Forall_substring.
    + apply Forall_app. split; [exact Hacc|]. repeat constructor.
      now apply Forall_substring.
Qed.

(** The pieces of a split are made of code units of the string. *)
Lemma split_Forall (P : ascii -> Prop) (s : jsstring) (r : regex) :
  Forall P s -> Forall (Forall P) (split s r).
Proof.
  intros Hs. unfold split. destruct s as [|c t] eqn:E.
  - destruct (execAt [] r 0); repeat constructor.
  - rewrite <- E in *. apply splitLoop_Forall; [exact Hs|constructor].
Qed.

Lemma tokens_alphabet (text : jsstring) :
  Forall (fun w => w <> [] /\ Forall (fun c => tokenChar c = true) w)
         (tokenizeWords text).
Proof.
  rewrite tokenizeWords_split.
  set (blanked := map _ (toLowerCase text)).
  apply Forall_forall. intros w Hw. apply filter_In in Hw as [Hw Ht].
  split; [now destruct w|].
  pose proof (proj1 (Forall_forall _ _) (split_Plus_pieces blanked isWhiteSpace) w Hw) as Hnw.
  assert (Hall : Forall (fun c => tokenChar c || isWhiteSpace c = true) blanked).
  { unfold blanked. apply Forall_map, Forall_forall. intros x _.
    destruct (tokenChar x || isWhiteSpace x) eqn:E; [exact E|reflexivity]. }
  pose proof (proj1 (Forall_forall _ _) (split_Forall _ blanked reSpaces Hall) w Hw) as Hw2.
  apply Forall_forall. intros c Hc.
  pose proof (proj1 (Forall_forall _ _) Hnw c Hc) as H1.
  pose proof (proj1 (Forall_forall _ _) Hw2 c Hc) as H2.
  cbv beta in H1, H2. rewrite H1, orb_false_r in H2. exact H2.
Qed.

(** Every token is non-empty and made of [a-z], [0-9], apostrophes and
    hyphens only: no capital, no white space, no other punctuation. *)
Theorem tokenizeWords_alphabet (text : jsstring) :
  Forall (fun w => w <> [] /\ Forall (fun c => tokenChar c = true) w)
         (tokenizeWords text).
Proof. apply tokens_alphabet. Qed.

(* ================================================================= *)
(** ** The counts of the keyword scorer *)

Lemma objGet_objSet_same (V : Type) (o : jsobject V) (k : jsstring) (v : V) :
  objGet (objSet o k v) k = Some v.
Proof.
  induction o as [|[k' v'] o IH]; simpl.
  - now rewrite str_eqb_refl.
  - destruct (str_eqb k' k) eqn:E; simpl; rewrite E; [reflexivity|exact IH].
Qed.

Lemma objGet_objSet_other (V : Type) (o : jsobject V) (k k0 : jsstring) (v : V) :
  k <> k0 -> objGet (objSet o k v) k0 = objGet o k0.
Proof.
  intros Hne. induction o as [|[k' v'] o IH]; simpl.
  - apply str_eqb_neq in Hne. now rewrite Hne.
  - destruct (str_eqb k' k) eqn:E; simpl.
    + apply str_eqb_eq in E. subst k'.
      apply str_eqb_neq in Hne. now rewrite Hne.
    + destruct (str_eqb k' k0); [reflexivity|exact IH].
Qed.

Lemma objGet_In (V : Type) (o : jsobject V) (k : jsstring) (v : V) :
  NoDup (map fst o) -> In (k, v) o -> objGet o k = Some v.
Proof.
  induction o as [|[k' v'] o IH]; simpl; intros Hnd H; [contradiction|].
  apply NoDup_cons_iff in Hnd as [Hk Hnd].
  destruct H as [H|H].
  - injection H as -> ->. now rewrite str_eqb_refl.
  - destruct (str_eqb k' k) eqn:E; [|now apply IH].
    apply str_eqb_eq in E. subst k'. exfalso. apply Hk.
    now apply (in_map fst) in H.
Qed.

Lemma countWord_countOf (freq : jsobject nat) (w k : jsstring) :
  counted k = true ->
  countOf (countWord freq w) k = countOf freq k + (if str_eqb k w then 1 else 0).
Proof.
  intros Hk. unfold countWord. fold (counted w).
  destruct (STOPWORDS_has w || (length w <=? 2)) eqn:Ew.
  - destruct (str_eqb k w) eqn:E; [|lia].
    apply str_eqb_eq in E. subst w. unfold counted in Hk. rewrite Ew in Hk. discriminate.
  - fold (countOf freq w). unfold countOf at 1.
    destruct (str_eqb k w) eqn:E.
    + apply str_eqb_eq in E. subst w. now rewrite objGet_objSet_same.
    + apply str_eqb_neq in E. rewrite objGet_objSet_other by congruence.
      fold (countOf freq k). lia.
Qed.

Lemma fold_countWord_countOf (words : list jsstring) (k : jsstring) :
  counted k = true ->
  forall freq,
    countOf (fold_left countWord words freq) k = countOf freq k + occurrences k words.
Proof.
  intros Hk. unfold occurrences.
  induction words as [|w ws IH]; intros freq; simpl; [lia|].
  rewrite IH, (countWord_countOf freq w k Hk).
  destruct (str_eqb k w); simpl; lia.
Qed.

Lemma occurrences_In (k : jsstring) (words : list jsstring) :
  In k words -> 1 <= occurrences k words.
Proof.
  unfold occurrences. induction words as [|w ws IH]; simpl; intros H; [contradiction|].
  destruct (str_eqb k w) eqn:E; simpl; [lia|].
  destruct H as [H|H]; [|now apply IH].
  subst w. rewrite str_eqb_refl in E. discriminate.
Qed.

(** The entries that are ranked: one per counted word, with the number of
    its occurrences. *)
Lemma ranked_entries (words : list jsstring) (e : jsstring * nat) :
  In e (sortBy byCountDesc (Object_entries (fold_left countWord words []))) <->
  In (fst e) words /\ counted (fst e) = true /\ snd e = occurrences (fst e) words.
Proof.
  destruct (freq_keys words) as (Hnd & Hin & _).
  set (o := fold_left countWord words []) in *.
  rewrite sortBy_In.
  assert (Hperm : forall x, In x (Object_entries o) <-> In x o).
  { intros x. split; apply Permutation_in;
      [|apply Permutation_sym]; apply Object_entries_perm. }
  rewrite Hperm. destruct e as [k v]. cbn [fst snd]. split.
  - intros H. pose proof (in_map fst _ _ H) as Hk. apply Hin in Hk as [Hw Hc].
    repeat split; [exact Hw|exact Hc|].
    pose proof (fold_countWord_countOf words k Hc []) as Hn. fold o in Hn.
    unfold countOf in Hn. rewrite (objGet_In _ o k v Hnd H) in Hn. exact Hn.
  - intros (Hw & Hc & ->).
    assert (Hk : In k (map fst o)) by (apply Hin; now split).
    apply in_map_iff in Hk as ([k' v'] & Ek & Hk). cbn in Ek. subst k'.
    pose proof (fold_countWord_countOf words k Hc []) as Hn. fold o in Hn.
    unfold countOf in Hn. rewrite (objGet_In _ o k v' Hnd Hk) in Hn.
    cbn in Hn. now subst v'.
Qed.

Lemma scoreKeywords_In (words : list jsstring) (kw : Keyword) :
  In kw (scoreKeywords words) ->
  In (keyword kw, count kw)
     (firstn 12 (sortBy byCountDesc (Object_entries (fold_left countWord words [])))).
Proof.
  unfold scoreKeywords. intros H. apply in_map_iff in H as ([k v] & <- & H). exact H.
Qed.

Lemma In_firstn (A : Type) (n : nat) (x : A) (l : list A) :
  In x (firstn n l) -> In x l.
Proof.
  intros H. rewrite <- (firstn_skipn n l). apply in_or_app. now left.
Qed.

(** The count of a keyword is the number of times the token occurs among
    the words, and it is at least 1. *)
Theorem scoreKeywords_counts (words : list jsstring) (kw : Keyword) :
  In kw (scoreKeywords words) ->
  count kw = occurrences (keyword kw) words /\ 1 <= count kw.
Proof.
  intros H. apply scoreKeywords_In, In_firstn, ranked_entries in H.
  cbn [fst snd] in H. destruct H as (Hw & _ & Hc).
  split; [exact Hc|]. rewrite Hc. now apply occurrences_In.
Qed.

Lemma scoreKeywords_counts_witness :
  3 = occurrences (str "deploy") (tokenizeWords (str "Deploy, deploy and DEPLOY the api."))
  /\ 1 <= 3.
Proof.
  apply (scoreKeywords_counts
           (tokenizeWords (str "Deploy, deploy and DEPLOY the api."))
           {| keyword := str "deploy"; count := 3 |}).
  vm_compute. left. reflexivity.
Defined.

Lemma NoDup_firstn_keys (A : Type) (n : nat) (l : list A) :
  NoDup l -> NoDup (firstn n l).
Proof.
  intros H. rewrite <- (firstn_skipn n l) in H. now apply NoDup_app_remove_r in H.
Qed.

(** No token is listed twice among the keywords. *)
Theorem scoreKeywords_distinct (words : list jsstring) :
  NoDup (map keyword (scoreKeywords words)).
Proof.
  unfold scoreKeywords. cbv zeta. rewrite map_map. cbn [keyword].
  rewrite <- firstn_map. apply NoDup_firstn_keys.
  destruct (freq_keys words) as (Hnd & _ & _).
  apply (Permutation_NoDup (l := map fst (fold_left countWord words []))); [|exact Hnd].
  apply Permutation_map, Permutation_sym.
  rewrite sortBy_perm. apply Object_entries_perm.
Qed.

Lemma firstn_short (A : Type) (n : nat) (l : list A) :
  length (firstn n l) < n -> firstn n l = l.
Proof.
  intros H. apply firstn_all2. rewrite length_firstn in H. lia.
Qed.

(** A counted word can be missing from the keywords only when the list is
    full (12 entries). *)
Theorem scoreKeywords_complete (words : list jsstring) (w : jsstring) :
  In w words -> counted w = true ->
  In w (map keyword (scoreKeywords words)) \/ length (scoreKeywords words) = 12.
Proof.
  intros Hw Hc.
  pose proof (proj2 (ranked_entries words (w, occurrences w words))) as Hin.
  specialize (Hin (conj Hw (conj Hc eq_refl))).
  unfold scoreKeywords. cbv zeta.
  set (arr := sortBy byCountDesc (Object_entries (fold_left countWord words []))) in *.
  rewrite length_map.
  destruct (Nat.eq_dec (length (firstn 12 arr)) 12) as [E|E]; [now right|left].
  assert (length (firstn 12 arr) <= 12) by apply firstn_le_length.
  rewrite firstn_short by lia.
  rewrite map_map. cbn [keyword]. now apply (in_map fst) in Hin.
Qed.

Lemma scoreKeywords_complete_witness :
  In (str "api") (map keyword (scoreKeywords (tokenizeWords (str "Deploy the api."))))
  \/ length (scoreKeywords (tokenizeWords (str "Deploy the api."))) = 12.
Proof.
  apply (scoreKeywords_complete (tokenizeWords (str "Deploy the api.")) (str "api")).
  - vm_compute. right. right. left. reflexivity.
  - vm_compute. reflexivity.
Defined.

Lemma StronglySorted_app_order (A : Type) (R : A -> A -> Prop) (l1 l2 : list A) :
  StronglySorted R (l1 ++ l2) -> forall x y, In x l1 -> In y l2 -> R x y.
Proof.
  induction l1 as [|a l1 IH]; simpl; intros Hs x y Hx Hy; [contradiction|].
  apply StronglySorted_inv in Hs as [Hs Ha].
  destruct Hx as [<-|Hx].
  - apply (proj1 (Forall_forall _ _) Ha). apply in_or_app. now right.
  - now apply IH.
Qed.

(** The keywords are the most frequent tokens: a counted word that is left
    out occurs no more often than any keyword that is listed. *)
Theorem scoreKeywords_top (words : list jsstring) (w : jsstring) (kw : Keyword) :
  In w words -> counted w = true ->
  ~ In w (map keyword (scoreKeywords words)) ->
  In kw (scoreKeywords words) ->
  occurrences w words <= count kw.
Proof.
  intros Hw Hc Hout Hkw.
  pose proof (proj2 (ranked_entries words (w, occurrences w words))
                    (conj Hw (conj Hc eq_refl))) as Hin.
  apply scoreKeywords_In in Hkw.
  unfold scoreKeywords in Hout. cbv zeta in Hout.
  set (arr := sortBy byCountDesc (Object_entries (fold_left countWord words []))) in *.
  rewrite map_map in Hout. cbn [keyword] in Hout.
  rewrite <- (firstn_skipn 12 arr) in Hin. apply in_app_or in Hin as [Hin|Hin].
  - exfalso. apply Hout. now apply (in_map fst) in Hin.
  - assert (Hs : StronglySorted (fun a b => (byCountDesc a b <= 0)%Z)
                                (firstn 12 arr ++ skipn 12 arr)).
    { rewrite firstn_skipn. apply sortBy_sorted; unfold byCountDesc; intros; lia. }
    pose proof (StronglySorted_app_order _ _ _ _ Hs _ _ Hkw Hin) as H.
    unfold byCountDesc in H. cbn [snd] in H. lia.
Qed.

(** The list of keywords is empty exactly when every word is a stopword or
    has two code units or fewer (in particular for no word at all). *)
Theorem scoreKeywords_empty (words : list jsstring) :
  scoreKeywords words = [] <-> Forall (fun w => counted w = false) words.
Proof.
  destruct (freq_keys words) as (_ & Hin & _).
  unfold scoreKeywords. cbv zeta.
  set (o := fold_left countWord words []) in *.
  split.
  - intros H. apply map_eq_nil in H.
    assert (Harr : sortBy byCountDesc (Object_entries o) = []).
    { destruct (sortBy byCountDesc (Object_entries o)); [reflexivity|discriminate]. }
    assert (Ho : o = []).
    { apply Permutation_nil. rewrite <- Harr.
      rewrite sortBy_perm. apply Object_entries_perm. }
    apply Forall_forall. intros w Hw.
    destruct (counted w) eqn:Hc; [|reflexivity].
    assert (In w (map fst o)) as Hk by (apply Hin; now split).
    rewrite Ho in Hk. destruct Hk.
  - intros H.
    assert (Ho : o = []).
    { destruct o as [|[k v] o'] eqn:E; [reflexivity|]. exfalso.
      assert (In k (map fst ((k, v) :: o'))) as Hk by now left.
      apply Hin in Hk as [Hw Hc].
      rewrite (proj1 (Forall_forall _ _) H k Hw) in Hc. discriminate. }
    now rewrite Ho.
Qed.

Lemma scoreKeywords_top_witness :
  occurrences (str "mike")
    (tokenizeWords (str "alpha alpha bravo charlie delta echo foxtrot golf hotel india juliet kilo lima mike"))
  <= 2.
Proof.
  apply (scoreKeywords_top
           (tokenizeWords (str "alpha alpha bravo charlie delta echo foxtrot golf hotel india juliet kilo lima mike"))
           (str "mike") {| keyword := str "alpha"; count := 2 |}).
  - vm_compute. do 13 right. left. reflexivity.
  - vm_compute. reflexivity.
  - vm_compute. intros H.
    repeat (destruct H as [H|H]; [discriminate H|]). exact H.
  - vm_compute. left. reflexivity.
Defined.

(* ================================================================= *)
(** ** More on the sentence splitter *)

(** Every sentence is non-empty and has no white space at either end. *)
Theorem splitSentences_clean (input : jsstring) :
  Forall (fun s => trim s = s /\ s <> []) (splitSentences input).
Proof. apply splitSentences_trimmed. Qed.

Lemma splitLoop_no_match (s : jsstring) (r : regex) :
  (forall q, execAt s r q = None) ->
  forall fuel q, splitLoop s r fuel 0 q [] = [s].
Proof.
  intros H. induction fuel as [|f IH]; intros q; simpl.
  - now rewrite substring_to_end.
  - destruct (q <? length s); [|now rewrite substring_to_end].
    rewrite H. apply IH.
Qed.

(** A pattern that matches nowhere leaves the string in one piece. *)
Lemma split_no_match (s : jsstring) (r : regex) :
  (forall q, execAt s r q = None) -> split s r = [s].
Proof.
  intros H. unfold split. destruct s as [|c t] eqn:E.
  - now rewrite H.
  - rewrite <- E in *. now apply splitLoop_no_match.
Qed.

Lemma reCRLF_needs_LF (s : jsstring) (i : nat) :
  ~ In LF s -> execAt s reCRLF i = None.
Proof.
  intros Hn. apply execAt_None. intros j H. unfold reCRLF, Chr in H.
  inversion H as [ | | a b i' m j' H1 H2 | | | | | | | | ]; subst.
  inversion H2 as [ | p i' c Hc Hp | | | | | | | | | ]; subst.
  apply Ascii.eqb_eq in Hp. subst c. apply Hn. now apply nth_error_In in Hc.
Qed.

Lemma reSentenceEnd_needs_mark (s : jsstring) (q : nat) :
  Forall (fun c => isTerminator c = false) s -> ~ In LF s ->
  execAt s reSentenceEnd q = None.
Proof.
  intros Ht Hn. apply execAt_None. intros j H. unfold reSentenceEnd, AtLeast2, Chr in H.
  inversion H as [ | | | | | | | | | | a i' j' H0 ]; subst.
  inversion H0 as [ | | | a b i' j'' H1 | a b i' j'' H1 | | | | | | ]; subst.
  - inversion H1 as [ | | a b i' m j'' H2 H3 | | | | | | | | ]; subst.
    inversion H2 as [ | p i' c Hc Hp | | | | | | | | | ]; subst.
    apply nth_error_In in Hc.
    pose proof (proj1 (Forall_forall _ _) Ht c Hc) as Hf.
    unfold isTerminator in Hf. rewrite Hf in Hp. discriminate.
  - inversion H1 as [ | | a b i' m j'' H2 H3 | | | | | | | | ]; subst.
    inversion H2 as [ | p i' c Hc Hp | | | | | | | | | ]; subst.
    apply Ascii.eqb_eq in Hp. subst c. apply Hn. now apply nth_error_In in Hc.
Qed.

(** A text without [.], [?], [!] and without a line feed is one sentence,
    its trimmed text, or no sentence at all when it is blank. *)
Theorem splitSentences_single (input : jsstring) :
  Forall (fun c => isTerminator c = false) input -> ~ In LF input ->
  splitSentences input = filter truthy [trim input].
Proof.
  intros Ht Hn. unfold splitSentences.
  rewrite (replaceAll_no_match input reCRLF [LF])
    by (intros i; now apply reCRLF_needs_LF).
  rewrite split_no_match; [reflexivity|].
  intros q. now apply reSentenceEnd_needs_mark.
Qed.

Lemma splitSentences_single_witness :
  splitSentences (str "  release notes for the api  ")
  = filter truthy [trim (str "  release notes for the api  ")].
Proof.
  apply (splitSentences_single (str "  release notes for the api  ")).
  - repeat constructor.
  - vm_compute. intros H.
    repeat (destruct H as [H|H]; [discriminate H|]). exact H.
Defined.

(* ================================================================= *)
(** ** What the patterns of the classifier match *)

Lemma Matches_Star_Class (s : jsstring) (p : ascii -> bool) (a b : nat) :
  Matches s (Star (Class p)) a b -> a <= b /\ allBetween p s a b.
Proof.
  intros H. remember (Star (Class p)) as r eqn:Er.
  induction H as [ | | | | | a0 i | a0 i j l H1 _ Hlt H2 IH | | | | ];
    try discriminate Er.
  - split; [lia|]. intros k Hk. lia.
  - injection Er as ->. destruct (IH eq_refl) as [Hjl Hall].
    inversion H1 as [ | p' i' c Hc Hp | | | | | | | | | ]; subst.
    split; [lia|]. intros k Hk.
    destruct (Nat.eq_dec k i) as [->|Hne]; [now exists c|].
    apply Hall. lia.
Qed.

Lemma Matches_Star_Class_intro (s : jsstring) (p : ascii -> bool) :
  forall n a b, b - a = n -> a <= b -> allBetween p s a b ->
                Matches s (Star (Class p)) a b.
Proof.
  induction n as [|n IH]; intros a b Hn Hab Hall.
  - replace b with a by lia. constructor.
  - destruct (Hall a) as (c & Hc & Hp); [lia|].
    apply MStarS with (S a); [now apply MClass with c|lia|].
    apply IH; [lia|lia|]. intros k Hk. apply Hall. lia.
Qed.

(** The numeric pattern matches exactly when a digit is followed by another
    digit or by a per cent sign; its year alternative adds nothing. *)
Theorem reNumeric_digits (s : jsstring) :
  test s reNumeric = true
  <-> exists i c d,
        nth_error s i = Some c /\ nth_error s (S i) = Some d
        /\ isDigit c = true /\ (isDigit d = true \/ d = "%"%char).
Proof.
  rewrite test_true. split.
  - intros (i & j & _ & H). unfold reNumeric, AtLeast2, Plus in H.
    inversion H as [ | | | a b i' j' H1 | a b i' j' H1 | | | | | | ]; subst.
    + inversion H1 as [ | | a b i' m j' H2 H3 | | | | | | | | ]; subst.
      inversion H2 as [ | p i' c Hc Hp | | | | | | | | | ]; subst.
      inversion H3 as [ | | a b i' m j' H4 H5 | | | | | | | | ]; subst.
      inversion H4 as [ | p i' d Hd Hq | | | | | | | | | ]; subst.
      exists i, c, d. auto.
    + inversion H1 as [ | | | a b i' j' H2 | a b i' j' H2 | | | | | | ]; subst.
      * cbn in H2.
        inversion H2 as [ | | a b i' m j' H3 H4 | | | | | | | | ]; subst.
        inversion H3 as [ | | a b i' m' j' H5 H6 | | | | | | | | ]; subst.
        inversion H5 as [ | p i' c Hc Hp | | | | | | | | | ]; subst.
        inversion H6 as [ | | a b i' m'' j' H7 H8 | | | | | | | | ]; subst.
        inversion H7 as [ | p i' d Hd Hq | | | | | | | | | ]; subst.
        apply Ascii.eqb_eq in Hp, Hq. subst c d.
        exists i, "2"%char, "0"%char. auto.
      * inversion H2 as [ | | a b i' m j' H3 H4 | | | | | | | | ]; subst.
        inversion H3 as [ | | a b i' m' j' H5 H6 | | | | | | | | ]; subst.
        inversion H5 as [ | p i' c Hc Hp | | | | | | | | | ]; subst.
        inversion H4 as [ | p i' x Hx Hq | | | | | | | | | ]; subst.
        apply Ascii.eqb_eq in Hq. subst x.
        apply Matches_Star_Class in H6 as [Hle Hall].
        destruct (Nat.eq_dec m (S i)) as [->|Hne].
        -- exists i, c, "%"%char. auto.
        -- destruct (Hall (m - 1)) as (d & Hd & Hdig); [lia|].
           exists (m - 1), d, "%"%char.
           replace (S (m - 1)) with m by lia. auto.
  - intros (i & c & d & Hc & Hd & Hdc & Hdd).
    exists i, (S (S i)). split; [apply nth_error_lt in Hc; lia|].
    unfold reNumeric, AtLeast2, Plus. destruct Hdd as [Hdd| ->].
    + apply MAltL. apply MSeq with (S i); [now apply MClass with c|].
      apply MSeq with (S (S i)); [now apply MClass with d|constructor].
    + apply MAltR, MAltR. apply MSeq with (S i).
      * apply MSeq with (S i); [now apply MClass with c|constructor].
      * apply MClass with "%"%char; [exact Hd|reflexivity].
Qed.

Lemma startsWithI_nonempty (w t : jsstring) :
  w <> [] -> startsWithI w t = true -> t <> [].
Proof.
  destruct w; [contradiction|]. destruct t; [discriminate|discriminate].
Qed.

Lemma startsWithI_in_range (s w : jsstring) (i : nat) :
  w <> [] -> startsWithI w (skipn i s) = true -> i < length s.
Proof.
  intros Hne H. apply (startsWithI_nonempty w _ Hne) in H.
  destruct (Nat.lt_ge_cases i (length s)) as [Hlt|Hge]; [exact Hlt|].
  exfalso. apply H. now apply skipn_all2.
Qed.

(** The fact-word pattern matches exactly when one of its seven words
    occurs, in any letter case, with a word boundary at both ends. *)
Theorem reFactWord_whole_word (s : jsstring) :
  test s reFactWord = true
  <-> exists w i,
        In w factWords /\ startsWithI w (skipn i s) = true
        /\ wordBoundary s i = true /\ wordBoundary s (i + length w) = true.
Proof.
  rewrite test_true. unfold reFactWord.
  change (map (fun w => LitI (str w))
              ["error";"commit";"bug";"issue";"cron";"workflow"]%string)
    with (map LitI (map str ["error";"commit";"bug";"issue";"cron";"workflow"]%string)).
  split.
  - intros (i & j & _ & H).
    apply Matches_word_alternatives in H as (w & Hin & -> & Hw & Hb1 & Hb2).
    exists w, i. auto.
  - intros (w & i & Hin & Hw & Hb1 & Hb2).
    exists i, (i + length w). split.
    + assert (w <> []) as Hne.
      { unfold factWords in Hin. cbn in Hin.
        repeat (destruct Hin as [<-|Hin]; [discriminate|]). destruct Hin. }
      apply (startsWithI_in_range s w i Hne) in Hw. lia.
    + apply Matches_word_alternatives. exists w. auto.
Qed.

Lemma test_reEndsQuestion (t : jsstring) :
  test t reEndsQuestion = true <-> exists pre, t = pre ++ ["?"%char].
Proof.
  rewrite test_true. unfold reEndsQuestion, Chr. split.
  - intros (i & j & _ & H).
    inversion H as [ | | a b i' m j' H1 H2 | | | | | | | | ]; subst.
    inversion H1 as [ | p i' c Hc Hp | | | | | | | | | ]; subst.
    apply Ascii.eqb_eq in Hp. subst c.
    assert (He : S i = length t) by (inversion H2; congruence).
    exists (firstn i t). rewrite <- (firstn_skipn_middle i t Hc) at 1.
    rewrite He, skipn_all. reflexivity.
  - intros (pre & ->). exists (length pre), (S (length pre)). split.
    + rewrite length_app. simpl. lia.
    + apply MSeq with (S (length pre)).
      * apply MClass with "?"%char; [|reflexivity].
        rewrite nth_error_app2, Nat.sub_diag by lia. reflexivity.
      * replace (S (length pre)) with (length (pre ++ ["?"%char]))
          by (rewrite length_app; simpl; lia).
        constructor.
Qed.

(** A sentence that matches neither the fact rule nor the claim rule and
    whose trimmed text ends with a question mark is a question. *)
Theorem classify_question_mark (s pre : jsstring) :
  factRule s = false -> claimRule s = false -> trim s = pre ++ ["?"%char] ->
  classify s = Question.
Proof.
  intros Hf Hc Ht. apply (classify_Question s Hf Hc).
  apply orb_true_iff. left. apply test_reEndsQuestion. now exists pre.
Qed.

Lemma classify_question_mark_witness :
  classify (str "Is it safe? ") = Question.
Proof.
  apply (classify_question_mark (str "Is it safe? ") (str "Is it safe"));
    vm_compute; reflexivity.
Defined.

(** What the interrogative pattern matches: ["who"] after leading white
    space only, or ["what"], ["why"], ["how"] at any index; in each case in
    any letter case and followed by a white-space code unit. *)
Theorem reInterrogative_matches (s : jsstring) :
  test s reInterrogative = true
  <-> (exists n c,
          allBetween isWhiteSpace s 0 n
          /\ startsWithI (str "who") (skipn n s) = true
          /\ nth_error s (n + 3) = Some c /\ isWhiteSpace c = true)
      \/ (exists w i c,
             In w (map str ["what"; "why"; "how"]%string)
             /\ startsWithI w (skipn i s) = true
             /\ nth_error s (i + length w) = Some c /\ isWhiteSpace c = true).
Proof.
  split.
  - intros H. apply test_true in H as (i & j & _ & H). unfold reInterrogative in H.
    inversion H as [ | | | a b i' j' H1 | a b i' j' H1 | | | | | | ]; subst.
    + left.
      inversion H1 as [ | | a b i' m j' H2 H3 | | | | | | | | ]; subst.
      inversion H2; subst.
      inversion H3 as [ | | a b i' n j' H4 H5 | | | | | | | | ]; subst.
      apply Matches_Star_Class in H4 as [_ Hall].
      inversion H5 as [ | | a b i' m j' H6 H7 | | | | | | | | ]; subst.
      apply (Matches_LitI s (str "who")) in H6 as [-> H6].
      inversion H7 as [ | p i' c Hc Hp | | | | | | | | | ]; subst.
      exists n, c. repeat split; assumption.
    + right.
      assert (Hone : forall w, Matches s (Seq (LitI w) (Class isWhiteSpace)) i j ->
                               exists c, startsWithI w (skipn i s) = true
                                         /\ nth_error s (i + length w) = Some c
                                         /\ isWhiteSpace c = true).
      { intros w Hw.
        inversion Hw as [ | | a b i' m j' H6 H7 | | | | | | | | ]; subst.
        apply Matches_LitI in H6 as [-> H6].
        inversion H7 as [ | p i' c Hc Hp | | | | | | | | | ]; subst.
        now exists c. }
      inversion H1 as [ | | | a b i' j' H2 | a b i' j' H2 | | | | | | ]; subst.
      * apply (Hone (str "what")) in H2 as (c & Hc). exists (str "what"), i, c.
        split; [now left|exact Hc].
      * inversion H2 as [ | | | a b i' j' H3 | a b i' j' H3 | | | | | | ]; subst.
        -- apply (Hone (str "why")) in H3 as (c & Hc). exists (str "why"), i, c.
           split; [right; now left|exact Hc].
        -- apply (Hone (str "how")) in H3 as (c & Hc). exists (str "how"), i, c.
           split; [right; right; now left|exact Hc].
  - intros [(n & c & Hall & Hw & Hc & Hws)|(w & i & c & Hin & Hw & Hc & Hws)].
    + apply test_true. exists 0, (S (n + 3)). split; [lia|].
      unfold reInterrogative. apply MAltL.
      apply MSeq with 0; [constructor|].
      apply MSeq with n.
      * apply (Matches_Star_Class_intro s isWhiteSpace n 0 n); [lia|lia|exact Hall].
      * apply MSeq with (n + 3); [|now apply MClass with c].
        apply Matches_LitI. split; [reflexivity|exact Hw].
    + now apply (interrogative_anywhere s w i c).
Qed.

(* ================================================================= *)
(** ** More on the focal point selector *)

Lemma mapiFrom_length (A B : Type) (f : A -> nat -> B) (l : list A) :
  forall i, length (mapiFrom f i l) = length l.
Proof.
  induction l as [|x l IH]; intros i; simpl; [reflexivity|]. now rewrite IH.
Qed.

Lemma mapiFrom_map (A B C : Type) (f : A -> nat -> B) (g : B -> C) (l : list A) :
  forall i, map g (mapiFrom f i l) = mapiFrom (fun x n => g (f x n)) i l.
Proof.
  induction l as [|x l IH]; intros i; simpl; [reflexivity|]. now rewrite IH.
Qed.

Lemma mapiFrom_no_index (A B : Type) (k : A -> B) (l : list A) :
  forall i, mapiFrom (fun x _ => k x) i l = map k l.
Proof.
  induction l as [|x l IH]; intros i; simpl; [reflexivity|]. now rewrite IH.
Qed.

Lemma mapiFrom_index_only (A B : Type) (u : nat -> B) (l : list A) :
  forall i, mapiFrom (fun _ n => u n) i l = map u (seq i (length l)).
Proof.
  induction l as [|x l IH]; intros i; simpl; [reflexivity|]. now rewrite IH.
Qed.

Lemma mapiFrom_sorted (A B : Type) (f : A -> nat -> B) (R0 : A -> A -> Prop)
      (R : B -> B -> Prop) (l : list A) :
  (forall a b i j, In a l -> In b l -> R0 a b -> R (f a i) (f b j)) ->
  StronglySorted R0 l -> forall i, StronglySorted R (mapiFrom f i l).
Proof.
  intros Hf Hs. induction Hs as [|x l Hs IH Hx]; intros i; simpl; constructor.
  - apply IH. intros a b i' j' Ha Hb. apply Hf; now right.
  - apply Forall_forall. intros y Hy.
    apply mapiFrom_In in Hy as (b & n & Hb & ->).
    apply Hf; [now left|now right|].
    now apply (proj1 (Forall_forall _ _) Hx).
Qed.

Lemma In_sorted_matched (A : Type) (cmp : A -> A -> Z) (n : nat) (x : A) (l : list A) :
  In x (firstn n (sortBy cmp l)) -> In x l.
Proof.
  intros H. apply In_firstn in H. now apply sortBy_In in H.
Qed.

(** The recorded length of a matched entry is the length of its sentence. *)
Lemma matched_length (topK : list jsstring) (sentences : list jsstring) :
  forall acc m,
    In m (fold_left (matchStep topK) sentences acc) ->
    In m acc \/
    exists s, In s sentences /\ Matched.sentence m = trim s
              /\ Matched.length m = length s.
Proof.
  induction sentences as [|s l IH]; simpl; intros acc m H; [now left|].
  apply IH in H as [H|(s' & Hin & H)].
  - unfold matchStep in H.
    destruct (negb (length (filter (fun k => includes (toLowerCase s) k) topK) =? 0));
      [|now left].
    apply in_app_or in H as [H|[<-|[]]]; [now left|].
    right. exists s. simpl. auto.
  - right. exists s'. split; [now right|exact H].
Qed.

Lemma byMatchesThenLength_le (a b : Matched.t) :
  (byMatchesThenLength a b <= 0)%Z <->
  length (Matched.matches b) < length (Matched.matches a)
  \/ (length (Matched.matches b) = length (Matched.matches a)
      /\ Matched.length b <= Matched.length a).
Proof.
  unfold byMatchesThenLength. cbv zeta.
  destruct (Z.eqb_spec (Z.of_nat (length (Matched.matches b))
                        - Z.of_nat (length (Matched.matches a))) 0); lia.
Qed.

Lemma matched_sorted (l : list Matched.t) :
  StronglySorted (fun a b => (byMatchesThenLength a b <= 0)%Z)
                 (sortBy byMatchesThenLength l).
Proof.
  apply sortBy_sorted.
  - intros x y H. apply byMatchesThenLength_le.
    assert (~ (byMatchesThenLength x y <= 0)%Z) as Hn by lia.
    rewrite byMatchesThenLength_le in Hn. lia.
  - intros x y z H1 H2. apply byMatchesThenLength_le.
    apply byMatchesThenLength_le in H1, H2. lia.
Qed.

(** There are at most five sentence-kind focal points, ranked by the number
    of their triggers and, among equals, by the length of the sentence;
    for sentences as the splitter produces them (trimmed) that length is
    the length of the summary. *)
Theorem focal_ranked (sentences : list jsstring) (keywords : list Keyword) :
  Forall (fun s => trim s = s) sentences ->
  length (focal (identifyFocalPoints sentences keywords)) <= 5
  /\ StronglySorted ranksNoLower (focal (identifyFocalPoints sentences keywords)).
Proof.
  intros Ht. unfold identifyFocalPoints. cbn [focal]. unfold mapi.
  set (matched := fold_left (matchStep (topKeywords keywords)) sentences []).
  split; [rewrite mapiFrom_length; apply firstn_le_length|].
  apply (mapiFrom_sorted _ _ _ (fun a b => (byMatchesThenLength a b <= 0)%Z)).
  - intros a b i j Ha Hb Hab. apply byMatchesThenLength_le in Hab.
    unfold ranksNoLower. cbn [Focal.triggers Focal.summary].
    assert (Hlen : forall m, In m (firstn 5 (sortBy byMatchesThenLength matched)) ->
                             Matched.length m = length (Matched.sentence m)).
    { intros m Hm. apply In_sorted_matched in Hm.
      apply matched_length in Hm as [[]|(s & Hs & E1 & E2)].
      rewrite E1, E2, (proj1 (Forall_forall _ _) Ht s Hs). reflexivity. }
    rewrite <- (Hlen a Ha), <- (Hlen b Hb). exact Hab.
  - apply StronglySorted_firstn, matched_sorted.
Qed.

Lemma focal_ranked_witness :
  length (focal (identifyFocalPoints
                   (map str ["Zebra eats apple."; "apple apple zebra mango."]%string)
                   (scoreKeywords (tokenizeWords (str "Zebra eats apple. apple apple zebra mango.")))))
  <= 5
  /\ StronglySorted ranksNoLower
       (focal (identifyFocalPoints
                 (map str ["Zebra eats apple."; "apple apple zebra mango."]%string)
                 (scoreKeywords (tokenizeWords (str "Zebra eats apple. apple apple zebra mango."))))).
Proof.
  apply (focal_ranked
           (map str ["Zebra eats apple."; "apple apple zebra mango."]%string)
           (scoreKeywords (tokenizeWords (str "Zebra eats apple. apple apple zebra mango.")))).
  repeat constructor.
Defined.

(** A sentence-kind focal point of trimmed sentences is one of the
    sentences; it has at least one trigger, and each trigger is one of the
    first six keywords and occurs in the lowercased summary. *)
Theorem focal_triggers (sentences : list jsstring) (keywords : list Keyword)
        (fp : Focal.t) :
  Forall (fun s => trim s = s) sentences ->
  In fp (focal (identifyFocalPoints sentences keywords)) ->
  In (Focal.summary fp) sentences
  /\ Focal.triggers fp <> []
  /\ forall t, In t (Focal.triggers fp) ->
               In t (map keyword (firstn 6 keywords))
               /\ includes (toLowerCase (Focal.summary fp)) t = true.
Proof.
  intros Ht H. unfold identifyFocalPoints in H. cbn [focal] in H.
  apply mapiFrom_In in H as (m & n & Hm & ->). cbn [Focal.summary Focal.triggers].
  apply In_sorted_matched, matched_entries in Hm as [[]|(s & Hs & H1 & H2 & H3)].
  rewrite H1, (proj1 (Forall_forall _ _) Ht s Hs).
  split; [exact Hs|]. split; [exact H3|].
  intros t Hin. rewrite H2 in Hin. apply filter_In in Hin as [Hk Hi].
  now rewrite <- topKeywords_firstn.
Qed.

Lemma focal_triggers_witness :
  In (str "Zebra eats apple.")
     (map str ["Zebra eats apple."; "apple apple zebra mango."]%string)
  /\ map str ["apple"; "zebra"; "eats"]%string <> []
  /\ forall t, In t (map str ["apple"; "zebra"; "eats"]%string) ->
               In t (map keyword
                         (firstn 6 (scoreKeywords
                                      (tokenizeWords (str "Zebra eats apple. apple apple zebra mango.")))))
               /\ includes (toLowerCase (str "Zebra eats apple.")) t = true.
Proof.
  apply (focal_triggers
           (map str ["Zebra eats apple."; "apple apple zebra mango."]%string)
           (scoreKeywords (tokenizeWords (str "Zebra eats apple. apple apple zebra mango.")))
           {| Focal.id := str "F2";
              Focal.summary := str "Zebra eats apple.";
              Focal.triggers := map str ["apple"; "zebra"; "eats"]%string |}).
  - repeat constructor.
  - vm_compute. right. left. reflexivity.
Defined.

(** The keyword-kind focal points are the first six keywords in rank
    order, numbered K1, K2, ...; they do not depend on the sentences. *)
Theorem micro_top_keywords (sentences : list jsstring) (keywords : list Keyword) :
  map Micro.keyword (micro (identifyFocalPoints sentences keywords))
  = map keyword (firstn 6 keywords)
  /\ map Micro.id (micro (identifyFocalPoints sentences keywords))
     = map (numberedId "K") (seq 0 (Nat.min 6 (length keywords))).
Proof.
  unfold identifyFocalPoints. cbn [micro]. unfold mapi.
  rewrite !mapiFrom_map. cbn [Micro.keyword Micro.id].
  rewrite mapiFrom_no_index, mapiFrom_index_only, map_id.
  split; [apply topKeywords_firstn|].
  unfold topKeywords. rewrite length_map, length_firstn.
  f_equal. f_equal. lia.
Qed.

Lemma NtoDecimal_inj (a b : N) : NtoDecimal a = NtoDecimal b -> a = b.
Proof.
  intros H. apply (f_equal parseDecimal) in H.
  rewrite !parseDecimal_NtoDecimal in H. now injection H.
Qed.

Lemma numberedId_inj (prefix : string) (i j : nat) :
  numberedId prefix i = numberedId prefix j -> i = j.
Proof.
  unfold numberedId. intros H. apply app_inv_head, NtoDecimal_inj in H. lia.
Qed.

Lemma numberedIds_NoDup (prefix : string) (a n : nat) :
  NoDup (map (numberedId prefix) (seq a n)).
Proof.
  apply Finite.Injective_map_NoDup_in; [|apply seq_NoDup].
  intros i j _ _. apply numberedId_inj.
Qed.

(** The identifiers F1, F2, ... of the sentence-kind focal points are
    pairwise distinct, and the proposals carry the same identifiers in the
    same order. *)
Theorem focal_ids_distinct (sentences : list jsstring) (keywords : list Keyword) :
  NoDup (map Focal.id (focal (identifyFocalPoints sentences keywords)))
  /\ map Proposal.id (reArchitect (identifyFocalPoints sentences keywords))
     = map Focal.id (focal (identifyFocalPoints sentences keywords)).
Proof.
  split.
  - unfold identifyFocalPoints. cbn [focal]. unfold mapi.
    rewrite mapiFrom_map. cbn [Focal.id]. rewrite mapiFrom_index_only.
    apply numberedIds_NoDup.
  - unfold reArchitect. rewrite map_map. reflexivity.
Qed.

(* ================================================================= *)
(** ** More on the suggestion generator *)

Lemma In_existsb (a : jsstring) (l : list jsstring) :
  In a l <-> existsb (str_eqb a) l = true.
Proof.
  rewrite existsb_exists. split.
  - intros H. exists a. split; [exact H|apply str_eqb_refl].
  - intros (x & Hx & E). apply str_eqb_eq in E. now subst x.
Qed.

(** Every proposal has between one and three actions and the four
    principle labels. *)
Theorem proposals_shape (fps : FocalPoints) (p : Proposal.t) :
  In p (reArchitect fps) ->
  1 <= length (Proposal.proposals p) <= 3
  /\ Proposal.principles p = map str ["Simple";"Efficient";"Pragmatic";"Safe"]%string.
Proof.
  intros H. apply reArchitect_In in H as (fp & _ & ->).
  cbn [propose Proposal.proposals Proposal.principles].
  split; [|reflexivity]. unfold collectActions.
  destruct (issueGroup _), (workflowGroup _), (emailGroup _);
    cbn [app firstn length Nat.eqb]; lia.
Qed.

Lemma proposals_shape_witness :
  1 <= length [actSecurityAudit; actInstrument] <= 3
  /\ map str ["Simple";"Efficient";"Pragmatic";"Safe"]%string
     = map str ["Simple";"Efficient";"Pragmatic";"Safe"]%string.
Proof.
  apply (proposals_shape
           (identifyFocalPoints
              (splitSentences (str "Rotate the gh token secret."))
              (scoreKeywords (tokenizeWords (str "Rotate the gh token secret."))))
           {| Proposal.id := str "F1";
              Proposal.problem := str "Rotate the gh token secret.";
              Proposal.proposals := [actSecurityAudit; actInstrument];
              Proposal.principles := map str ["Simple";"Efficient";"Pragmatic";"Safe"]%string |}).
  vm_compute. left. reflexivity.
Defined.

(** Which actions a proposal holds, by the trigger groups that the
    lowercased summary matches.  The two actions of the first matching
    group are always kept; truncation to three drops the instrumentation
    action after an issue match, the fallback action after any other match
    and both e-mail actions when the two other groups match; the
    clarifying question stands alone when no group matches. *)
Theorem proposal_actions (fp : Focal.t) :
  let s := toLowerCase (Focal.summary fp) in
  let acts := Proposal.proposals (propose fp) in
  (In actTriage acts <-> issueGroup s = true)
  /\ (In actAutomate acts <-> issueGroup s = true)
  /\ (In actSecurityAudit acts <-> workflowGroup s = true)
  /\ (In actInstrument acts <-> workflowGroup s = true /\ issueGroup s = false)
  /\ (In actValidate acts
      <-> emailGroup s = true /\ (issueGroup s && workflowGroup s) = false)
  /\ (In actFallback acts
      <-> emailGroup s = true /\ issueGroup s = false /\ workflowGroup s = false)
  /\ (In actClarify acts
      <-> issueGroup s = false /\ workflowGroup s = false /\ emailGroup s = false).
Proof.
  intros s acts. subst acts. cbn [propose Proposal.proposals]. fold s.
  unfold collectActions. rewrite !In_existsb.
  destruct (issueGroup s), (workflowGroup s), (emailGroup s);
    vm_compute; intuition discriminate.
Qed.

(* ================================================================= *)
(** ** The stages put together *)



(** The sizes in a report: the source size is the length of the input,
    there are at most 12 keywords and 5 sentence-kind focal points, as many
    keyword-kind focal points as there are keywords up to 6, one proposal
    per sentence-kind focal point, and the three buckets together hold as
    many entries as there are sentences. *)
Theorem pipeline_sizes (now input : jsstring) :
  sourceSize (meta (pipeline now input)) = length input
  /\ length (keywords (pipeline now input)) <= 12
  /\ length (focal (focalPoints (pipeline now input))) <= 5
  /\ length (micro (focalPoints (pipeline now input)))
     = Nat.min 6 (length (keywords (pipeline now input)))
  /\ length (rearchitecture (pipeline now input))
     = length (focal (focalPoints (pipeline now input)))
  /\ length (facts (deconstruction (pipeline now input)))
     + length (claims (deconstruction (pipeline now input)))
     + length (questions (deconstruction (pipeline now input)))
     = length (splitSentences input).
Proof.
  unfold pipeline, summarizeJSON.
  cbn [meta sourceSize keywords focalPoints rearchitecture deconstruction].
  split; [reflexivity|]. split.
  { unfold scoreKeywords. cbv zeta. rewrite length_map. apply firstn_le_length. }
  split.
  { unfold identifyFocalPoints. cbn [focal]. unfold mapi.
    rewrite mapiFrom_length. apply firstn_le_length. }
  split.
  { unfold identifyFocalPoints. cbn [micro]. unfold mapi, topKeywords.
    rewrite mapiFrom_length, length_map, length_firstn. lia. }
  split.
  { unfold reArchitect. apply length_map. }
  rewrite extractFactsAndClaims_buckets. cbn [facts claims questions].
  rewrite !length_map. apply ofClass_lengths.
Qed.

(** Every keyword of a report is a token of the input: made of [a-z],
    [0-9], apostrophes and hyphens, longer than two code units, not a
    stopword, and counted as often as it occurs among the tokens. *)
Theorem pipeline_keywords_are_tokens (now input : jsstring) (kw : Keyword) :
  In kw (keywords (pipeline now input)) ->
  In (keyword kw) (tokenizeWords input)
  /\ Forall (fun c => tokenChar c = true) (keyword kw)
  /\ 2 < length (keyword kw)
  /\ STOPWORDS_has (keyword kw) = false
  /\ count kw = occurrences (keyword kw) (tokenizeWords input).
Proof.
  unfold pipeline, summarizeJSON. cbn [keywords]. intros H.
  apply scoreKeywords_In, In_firstn, ranked_entries in H.
  cbn [fst snd] in H. destruct H as (Hw & Hc & Hn).
  split; [exact Hw|]. split.
  - apply (proj1 (Forall_forall _ _) (tokens_alphabet input) _ Hw).
  - unfold counted in Hc. apply negb_true_iff, orb_false_iff in Hc as [H1 H2].
    apply Nat.leb_gt in H2. auto.
Qed.

Lemma pipeline_keywords_are_tokens_witness :
  In (str "deploy") (tokenizeWords (str "Deploy, deploy and DEPLOY the api."))
  /\ Forall (fun c => tokenChar c = true) (str "deploy")
  /\ 2 < length (str "deploy")
  /\ STOPWORDS_has (str "deploy") = false
  /\ 3 = occurrences (str "deploy") (tokenizeWords (str "Deploy, deploy and DEPLOY the api.")).
Proof.
  apply (pipeline_keywords_are_tokens [] (str "Deploy, deploy and DEPLOY the api.")
                                      {| keyword := str "deploy"; count := 3 |}).
  vm_compute. left. reflexivity.
Defined.

Lemma In_bucket (sentences : list jsstring) (s : jsstring) :
  In s sentences ->
  In (trim s)
     (facts (extractFactsAndClaims sentences)
      ++ claims (extractFactsAndClaims sentences)
      ++ questions (extractFactsAndClaims sentences)).
Proof.
  intros H. rewrite extractFactsAndClaims_buckets. cbn [facts claims questions].
  assert (Hc : forall c, classify s = c -> In (trim s) (map trim (ofClass c sentences))).
  { intros c Hc. apply in_map. unfold ofClass. apply filter_In. split; [exact H|].
    rewrite Hc. now destruct c. }
  rewrite !in_app_iff. destruct (classify s) eqn:E.
  - left. now apply Hc.
  - right. left. now apply Hc.
  - right. right. now apply Hc.
Qed.

(** In a report, the summary of every sentence-kind focal point is one of
    the sentences of the input, it is also listed among the facts, claims
    or questions, and it is the problem of the proposal with the same
    identifier. *)
Theorem pipeline_focal_sentences (now input : jsstring) (fp : Focal.t) :
  In fp (focal (focalPoints (pipeline now input))) ->
  In (Focal.summary fp) (splitSentences input)
  /\ In (Focal.summary fp)
        (facts (deconstruction (pipeline now input))
         ++ claims (deconstruction (pipeline now input))
         ++ questions (deconstruction (pipeline now input)))
  /\ exists p, In p (rearchitecture (pipeline now input))
               /\ Proposal.id p = Focal.id fp
               /\ Proposal.problem p = Focal.summary fp.
Proof.
  unfold pipeline, summarizeJSON. cbn [focalPoints deconstruction rearchitecture].
  intros H. split; [|split].
  - unfold identifyFocalPoints in H. cbn [focal] in H.
    apply mapiFrom_In in H as (m & n & Hm & ->). cbn [Focal.summary].
    apply In_sorted_matched, matched_entries in Hm as [[]|(s & Hs & H1 & _)].
    rewrite H1.
    destruct (proj1 (Forall_forall _ _) (splitSentences_trimmed input) s Hs) as [-> _].
    exact Hs.
  - unfold identifyFocalPoints in H. cbn [focal] in H.
    apply mapiFrom_In in H as (m & n & Hm & ->). cbn [Focal.summary].
    apply In_sorted_matched, matched_entries in Hm as [[]|(s & Hs & H1 & _)].
    rewrite H1. now apply In_bucket.
  - exists (propose fp). split; [|split; reflexivity].
    unfold reArchitect. now apply in_map.
Qed.

Lemma pipeline_focal_sentences_witness :
  In (str "Rotate the gh token secret.")
     (splitSentences (str "Rotate the gh token secret. Then rest."))
  /\ In (str "Rotate the gh token secret.")
        (facts (deconstruction (pipeline [] (str "Rotate the gh token secret. Then rest.")))
         ++ claims (deconstruction (pipeline [] (str "Rotate the gh token secret. Then rest.")))
         ++ questions (deconstruction (pipeline [] (str "Rotate the gh token secret. Then rest."))))
  /\ exists p, In p (rearchitecture (pipeline [] (str "Rotate the gh token secret. Then rest.")))
               /\ Proposal.id p = str "F1"
               /\ Proposal.problem p = str "Rotate the gh token secret.".
Proof.
  apply (pipeline_focal_sentences [] (str "Rotate the gh token secret. Then rest.")
           {| Focal.id := str "F1";
              Focal.summary := str "Rotate the gh token secret.";
              Focal.triggers := map str ["rotate"; "token"; "secret"]%string |}).
  vm_compute. left. reflexivity.
Defined.

(** A sentence is classified on its own: the buckets of a concatenation of
    two sequences are the buckets of the first followed by the buckets of
    the second. *)
Theorem extractFactsAndClaims_app (a b : list jsstring) :
  facts (extractFactsAndClaims (a ++ b))
  = facts (extractFactsAndClaims a) ++ facts (extractFactsAndClaims b)
  /\ claims (extractFactsAndClaims (a ++ b))
     = claims (extractFactsAndClaims a) ++ claims (extractFactsAndClaims b)
  /\ questions (extractFactsAndClaims (a ++ b))
     = questions (extractFactsAndClaims a) ++ questions (extractFactsAndClaims b).
Proof.
  rewrite !extractFactsAndClaims_buckets. cbn [facts claims questions].
  unfold ofClass. rewrite !filter_app, !map_app. auto.
Qed.
